(** * jsxgettext: extraction of translatable strings and catalog merging

    A shallow embedding of [lib/jsxgettext.js] and of the catalog helper it
    loads as [./po-helper], followed by the properties of the written
    specification that were checked against it.

    Conventions of the embedding.
    - A JavaScript string is a [string]; a character is a code unit below
      256, so the white space of [\s] and of [String.prototype.trim] is
      the Latin-1 part of it (9-13, 32, 160).
    - A property that may be absent ([undefined]) is an [option].
    - A plain object used as a dictionary is a [gmap string _].  The
      properties inherited from [Object.prototype] are outside the model
      of the catalog helper; the [in] test of the extractor on the
      object it fills counts them ([has_property]).
    - A [throw] is the [Err] case of [js_result]. *)

From Stdlib Require Import String Ascii List Bool Arith Lia DecimalString.
From stdpp Require Import base option list strings gmap fin_maps relations.

Local Open Scope string_scope.

(** ** Exceptions *)

Inductive js_result (E A : Type) : Type :=
| Ok (a : A)
| Err (e : E).
Arguments Ok {E A} a.
Arguments Err {E A} e.

Definition js_bind {E A B} (r : js_result E A) (k : A → js_result E B)
  : js_result E B :=
  match r with
  | Ok a => k a
  | Err e => Err e
  end.

Global Instance js_result_mbind {E} : MBind (js_result E) :=
  λ A B k r, js_bind r k.
Global Instance js_result_mret {E} : MRet (js_result E) := λ A a, Ok a.

(** ** JavaScript strings *)

Module JsString.

Definition newline : ascii := ascii_of_nat 10.
Definition slash : ascii := ascii_of_nat 47.
Definition hash : ascii := ascii_of_nat 35.

(** Truthiness of a string: every string but the empty one. *)
Definition truthy (s : string) : bool :=
  match s with
  | EmptyString => false
  | String _ _ => true
  end.

(** Truthiness of a property that holds a string or is [undefined]. *)
Definition truthy_opt (o : option string) : bool :=
  match o with
  | Some s => truthy s
  | None => false
  end.

(** [a || b] on such properties. *)
Definition or_else (a b : option string) : option string :=
  if truthy_opt a then a else b.

(** [a || d] where [d] is a string literal. *)
Definition or_default (a : option string) (d : string) : string :=
  match a with
  | Some s => if truthy s then s else d
  | None => d
  end.

(** [s.split('\n')]. *)
Fixpoint split_newline (s : string) : list string :=
  match s with
  | EmptyString => [EmptyString]
  | String c s' =>
      if Ascii.eqb c newline then EmptyString :: split_newline s'
      else match split_newline s' with
           | [] => [String c EmptyString]
           | l :: ls => String c l :: ls
           end
  end.

(** [arr.join('\n')]. *)
Fixpoint join_newline (arr : list string) : string :=
  match arr with
  | [] => EmptyString
  | [x] => x
  | x :: rest => x +:+ String newline (join_newline rest)
  end.

(** [arr.indexOf(item)], [None] standing for [-1]. *)
Fixpoint indexOf (item : string) (arr : list string) : option nat :=
  match arr with
  | [] => None
  | x :: rest =>
      if String.eqb x item then Some 0 else S <$> indexOf item rest
  end.

(** [arr.filter(f)], where [f] receives the item, its index and [arr]. *)
Fixpoint filter_from (f : string → nat → list string → bool)
    (arr : list string) (i : nat) (l : list string) : list string :=
  match l with
  | [] => []
  | x :: l' =>
      if f x i arr then x :: filter_from f arr (S i) l'
      else filter_from f arr (S i) l'
  end.

Definition Array_filter (f : string → nat → list string → bool)
    (arr : list string) : list string :=
  filter_from f arr 0 arr.

(** White space as [\s] and [trim] see it. *)
Definition is_space (c : ascii) : bool :=
  let n := nat_of_ascii c in
  ((9 <=? n)%nat && (n <=? 13)%nat) || (n =? 32)%nat || (n =? 160)%nat.

Fixpoint trim_start (s : string) : string :=
  match s with
  | EmptyString => EmptyString
  | String c s' => if is_space c then trim_start s' else s
  end.

(** What is left of [s] once its trailing white space is removed. *)
Fixpoint trim_end (s : string) : string :=
  match s with
  | EmptyString => EmptyString
  | String c s' =>
      match trim_end s' with
      | EmptyString => if is_space c then EmptyString else String c EmptyString
      | t => String c t
      end
  end.

(** [s.trim()]. *)
Definition trim (s : string) : string := trim_end (trim_start s).

(** [s.replace(/^\//, '')]: one leading slash is removed. *)
Definition strip_leading_slash (s : string) : string :=
  match s with
  | String c s' => if Ascii.eqb c slash then s' else s
  | EmptyString => s
  end.

(** The line terminators that [.] does not match. *)
Definition is_line_terminator (c : ascii) : bool :=
  let n := nat_of_ascii c in (n =? 10)%nat || (n =? 13)%nat.

Fixpoint drop_line (s : string) : string :=
  match s with
  | EmptyString => EmptyString
  | String c s' => if is_line_terminator c then s else drop_line s'
  end.

(** [s.replace(/^#.*/, '')]: a leading hash-bang line loses its text. *)
Definition strip_hashbang (s : string) : string :=
  match s with
  | String c s' => if Ascii.eqb c hash then drop_line s' else s
  | EmptyString => s
  end.

(** [s.substr(0, 1) === "n"]. *)
Definition starts_with_n (s : string) : bool :=
  match s with
  | String c _ => Ascii.eqb c (ascii_of_nat 110)
  | EmptyString => false
  end.

(** Decimal rendering of a line number, as [+] does it. *)
Definition of_nat (n : nat) : string :=
  NilEmpty.string_of_uint (Nat.to_uint n).

End JsString.

(** ** The catalog helper ([./po-helper])

    The helper assigns [mergeTranslations], [readPoFile] and
    [defaultHeaders] to its [exports], and nothing else.  The extractor
    also calls [poHelper.mergeTranslation], which the helper defines for
    its own use but does not export, so that the call throws, and
    [poHelper.compareTranslations], which the helper's source does not
    define. *)

(** The [comments] object of a catalog entry.  The catalog reader fills
    [translator], [flag] and [previous] as well; the extractor only ever
    writes [reference] and [extracted]. *)
Record comments_t : Type := Comments {
  translator : option string;
  reference : option string;
  extracted : option string;
  flag : option string;
  previous : option string
}.

(** A catalog entry. *)
Record translation : Type := Translation {
  msgid : string;
  msgctxt : option string;
  msgid_plural : option string;
  msgstr : option (list string);
  comments : option comments_t
}.

Global Instance comments_t_eq_dec : EqDecision comments_t.
Proof. solve_decision. Defined.

Global Instance translation_eq_dec : EqDecision translation.
Proof. solve_decision. Defined.

(** The entries of one context, keyed by [msgid]. *)
Abbreviation translations_t := (gmap string translation).

Module PoHelper.
Import JsString.

Definition deduplicateFilter (item : string) (i : nat) (arr : list string)
  : bool :=
  truthy item && bool_decide (indexOf item arr = Some i).

Definition mergeComment (oldComment newComment : option string)
  : option string :=
  match oldComment, newComment with
  | Some o, Some n =>
      Some (join_newline
              (Array_filter deduplicateFilter
                 (split_newline o ++ split_newline n)))
  | _, _ => or_else oldComment newComment
  end.

Definition mergeComments (oldComments newComments : option comments_t)
  : option comments_t :=
  match oldComments, newComments with
  | Some o, Some n =>
      Some {| translator := None;
              reference := mergeComment (reference o) (reference n);
              extracted := mergeComment (extracted o) (extracted n);
              flag := None;
              previous := None |}
  | Some _, None => oldComments
  | None, _ => newComments
  end.

(** One field of [Object.assign(target, source)]: the source wins where
    it has the property. *)
Definition assign_field {A} (target source : option A) : option A :=
  match source with
  | Some v => Some v
  | None => target
  end.

(** [Object.assign({ comments: {} }, oldTranslation, newTranslation)]. *)
Definition assign_translation (oldTranslation newTranslation : translation)
  : translation :=
  let empty_comments := Comments None None None None None in
  {| msgid := msgid newTranslation;
     msgctxt := assign_field (msgctxt oldTranslation) (msgctxt newTranslation);
     msgid_plural :=
       assign_field (msgid_plural oldTranslation) (msgid_plural newTranslation);
     msgstr := assign_field (msgstr oldTranslation) (msgstr newTranslation);
     comments :=
       assign_field
         (assign_field (Some empty_comments) (comments oldTranslation))
         (comments newTranslation) |}.

Definition mergeTranslation (oldTranslation newTranslation : translation)
  : translation :=
  let translation := assign_translation oldTranslation newTranslation in
  {| msgid := msgid translation;
     msgctxt := msgctxt translation;
     msgid_plural := msgid_plural translation;
     msgstr := msgstr translation;
     comments :=
       mergeComments (comments oldTranslation) (comments newTranslation) |}.

(** [JSON.parse(JSON.stringify(x))]: a deep copy.  The values of the
    model are JSON data without [undefined] members, on which the copy
    is equal to its argument; nothing in the program writes into a copied
    or into an original entry afterwards. *)
Definition JSON_copy {A} (x : A) : A := x.

(** One turn of the [for (var msgId in newTranslations)] loop. *)
Definition merge_step (msgId : string) (newTranslation : translation)
    (translations : translations_t) : translations_t :=
  match translations !! msgId with
  | Some existing =>
      <[msgId := mergeTranslation existing newTranslation]> translations
  | None => <[msgId := newTranslation]> translations
  end.

Definition mergeTranslations (oldTranslations newTranslations : translations_t)
  : translations_t :=
  map_fold merge_step (JSON_copy oldTranslations) newTranslations.

End PoHelper.

(** ** Syntax trees

    The trees are those the parser ([acorn-jsx], with [locations] on)
    hands to the program.  Only what the program reads of a node is kept:
    its [type], the properties the extractor looks at, and the sub-nodes
    the walker descends into.  [OtherNode] stands for every node type of
    the base grammar that is not listed ([Program], [ExpressionStatement],
    [VariableDeclaration], ...), with the sub-nodes in the order in which
    the base walker visits them. *)

#[local] Set Warnings "-register-all".

Inductive literal_value : Type :=
| LitString (s : string)
| LitOther.

Inductive node : Type :=
| Identifier (name : string)
| Literal (value : literal_value)
| BinaryExpression (operator : string) (left right : node)
| MemberExpression (object property : node) (computed : bool)
| CallExpression (callee : node) (arguments : list node) (line : nat)
| JSXElement (attributes children : list node)
| JSXAttribute (value : option node)
| JSXSpreadAttribute (argument : node)
| JSXExpressionContainer (expression : node)
| JSXEmptyExpression
| OtherNode (type : string) (subnodes : list node).

(** What the program can throw. *)
Inductive js_error : Type :=
| TypeError (what : string)
| SyntaxError (what : string)
| CouldNotParseTranslatable (firstArg : option node)
| InvalidPoFile.

Abbreviation result := (js_result js_error).

(** A comment as the parser reports it to [onComment]: block or line
    comment, its text without the delimiters, and the line it starts on. *)
Record comment_token : Type := CommentToken {
  token_block : bool;
  token_text : string;
  token_line : nat
}.

(** What [parser.parse] delivers: the tree, and the comments in source
    order. *)
Record parsed : Type := Parsed {
  parsed_ast : node;
  parsed_comments : list comment_token
}.

(** An element of [astComments]. *)
Record ast_comment : Type := AstComment {
  comment_line : nat;
  comment_value : string
}.

Module Extractor.
Import JsString.

(** *** The walker *)

Section Walker.
Context {S : Type}.

(** [for (i = 0; i < list.length; i++) c(list[i], st)]. *)
Definition each (c : node → S → result S) : list node → S → result S :=
  fix each (l : list node) (st : S) : result S :=
    match l with
    | [] => Ok st
    | x :: l' => st' ← c x st; each l' st'
    end.

(** The rule table [walkBase]: the rules of the base walker for the
    node types of the base grammar, and the five rules for markup
    that the program adds.  [c] is the continuation each rule calls
    on the sub-nodes it descends into. *)
Definition walkBase (c : node → S → result S) (n : node) (st : S)
  : result S :=
  match n with
  | Identifier _ => Ok st
  | Literal _ => Ok st
  | BinaryExpression _ l r => st' ← c l st; c r st'
  | MemberExpression o p computed =>
      st' ← c o st; if computed then c p st' else Ok st'
  | CallExpression callee args _ => st' ← c callee st; each c args st'
  | JSXElement attributes children =>
      st' ← each c attributes st; each c children st'
  | JSXAttribute None =>
      Err (TypeError "Cannot read property 'type' of null")
  | JSXAttribute (Some v) =>
      match v with
      | JSXExpressionContainer _ => c v st
      | _ => Ok st
      end
  | JSXSpreadAttribute a => c a st
  | JSXExpressionContainer e => c e st
  | JSXEmptyExpression => Ok st
  | OtherNode _ subnodes => each c subnodes st
  end.

(** [walk.simple(ast, { CallExpression: found }, walkBase)]: the
    rule of the node's type runs first, then the visitor for that
    type, if there is one. *)
Variable found : node → S → result S.

Fixpoint simple (n : node) (st : S) : result S :=
  st' ← walkBase simple n st;
  match n with
  | CallExpression _ _ _ => found n st'
  | _ => Ok st'
  end.

End Walker.

(** *** String literals and their concatenations *)

Definition isStringLiteral (n : node) : bool :=
  match n with
  | Literal (LitString _) => true
  | _ => false
  end.

Fixpoint isStrConcatExpr (n : node) : bool :=
  match n with
  | BinaryExpression operator l r =>
      String.eqb operator "+"
      && ((isStringLiteral l || isStrConcatExpr l)
          && (isStringLiteral r || isStrConcatExpr r))
  | _ => false
  end.

Definition isString (n : node) : bool :=
  isStringLiteral n || isStrConcatExpr n.

(** Reading [left] and [right] off a node that has neither is a
    [TypeError] in the recursive call. *)
Fixpoint extractStr (n : node) : result string :=
  match n with
  | Literal (LitString s) => Ok s
  | BinaryExpression _ l r =>
      a ← extractStr l; b ← extractStr r; Ok (a +:+ b)
  | _ => Err (TypeError "Cannot read property 'type' of undefined")
  end.

(** *** Call sites *)

(** [n.name], for the nodes that can stand where it is read. *)
Definition node_name (n : node) : option string :=
  match n with
  | Identifier name => Some name
  | _ => None
  end.

(** [n.property]. *)
Definition node_property (n : node) : option node :=
  match n with
  | MemberExpression _ p _ => Some p
  | _ => None
  end.

(** [n.value] where it is a string.  A value of another type becomes a
    function name that no allowed name is equal to, as [undefined]. *)
Definition node_value (n : node) : option string :=
  match n with
  | Literal (LitString s) => Some s
  | _ => None
  end.

(** The function name is [None] where the program has [undefined] (or a
    value that is not a string). *)
Definition getFunctionNameAndArguments (n : node)
  : option (option string * list node) :=
  match n with
  | CallExpression callee args _ =>
      let funcName := node_name callee in
      if truthy_opt funcName then Some (funcName, args)
      else
        match callee with
        | MemberExpression obj p _ =>
            if bool_decide (node_name p = Some "call") then
              let prop := node_property obj in
              Some (or_else (node_name obj)
                      (match prop with
                       | Some prop => or_else (node_name prop) (node_value prop)
                       | None => None
                       end),
                    tail args)
            else Some (node_name p, args)
        | _ => None
        end
  | _ => None
  end.

(** [allowedNames.indexOf(functionName) === -1]. *)
Definition not_allowed (allowedNames : list string)
    (functionName : option string) : bool :=
  match functionName with
  | Some f => bool_decide (indexOf f allowedNames = None)
  | None => true
  end.

(** [None] is the falsy outcome ([false] or [undefined]); [Some] holds
    the array of one or two strings. *)
Definition maybeExtractMsgids (n : node) (allowedNames : list string)
    (strict : bool) : result (option (list string)) :=
  match getFunctionNameAndArguments n with
  | None => Ok None
  | Some (functionName, args) =>
      let firstArg := args !! 0 in
      let secondArg := args !! 1 in
      if not_allowed allowedNames functionName then Ok None
      else
        match firstArg, secondArg with
        | Some a1, Some a2 =>
            if from_option starts_with_n false functionName
               && isString a1 && isString a2
            then s1 ← extractStr a1; s2 ← extractStr a2; Ok (Some [s1; s2])
            else if isString a1
            then s1 ← extractStr a1; Ok (Some [s1])
            else if strict then Err (CouldNotParseTranslatable firstArg)
            else Ok None
        | Some a1, None =>
            if isString a1
            then s1 ← extractStr a1; Ok (Some [s1])
            else if strict then Err (CouldNotParseTranslatable firstArg)
            else Ok None
        | None, _ =>
            if strict then Err (CouldNotParseTranslatable firstArg)
            else Ok None
        end
  end.

(** *** Comments *)

(** The pattern [^\s*TAG]: the tag, after any of the leading white
    space. *)
Fixpoint match_tag (tag text : string) : bool :=
  String.prefix tag text
  || match text with
     | String c rest => is_space c && match_tag tag rest
     | EmptyString => false
     end.

(** The pattern [^\/]. *)
Definition match_slash (text : string) : bool :=
  match text with
  | String c _ => Ascii.eqb c slash
  | EmptyString => false
  end.

(** The regular expression built from the tag, as the set of texts it
    matches. *)
Definition commentRegex_of (tagName : string) (text : string) : bool :=
  match_tag tagName text || match_slash text.

(** The [onComment] callback, on the comments captured so far. *)
Definition onComment (commentRegex : string → bool)
    (astComments : list ast_comment) (tok : comment_token)
  : list ast_comment :=
  if commentRegex (token_text tok) then
    let text := trim (strip_leading_slash (token_text tok)) in
    if truthy text
    then astComments ++ [AstComment (token_line tok) text]
    else astComments
  else astComments.

Definition findComments (comments : list ast_comment) (line : nat) : string :=
  join_newline
    (omap (λ o : option string, if truthy_opt o then o else None)
       (map (λ c : ast_comment,
               let commentLine := comment_line c in
               if bool_decide (commentLine = line)
                  || bool_decide (commentLine + 1 = line)
               then Some (comment_value c) else None)
            comments)).

(** *** One file *)

Definition node_line (n : node) : nat :=
  match n with
  | CallExpression _ _ line => line
  | _ => 0
  end.

(** The entry built at a call site: [translation] as the visitor has it
    once the [if (msgids.length > 1)] block is through. *)
Definition candidate (filename : string) (astComments : list ast_comment)
    (n : node) (msgid : string) (msgids : list string) : translation :=
  let line := node_line n in
  let comments := findComments astComments line in
  let ref := filename +:+ ":" +:+ of_nat line in
  let plural := (1 <? length msgids)%nat in
  {| msgid := msgid;
     msgctxt := None;
     msgid_plural := if plural then msgids !! 1 else None;
     msgstr := Some (if plural then [""; ""] else []);
     comments :=
       Some {| translator := None;
               reference := Some ref;
               extracted := Some comments;
               flag := None;
               previous := None |} |}.

(** The names of the properties of [Object.prototype], which every
    object literal inherits. *)
Definition Object_prototype : list string :=
  ["constructor"; "__defineGetter__"; "__defineSetter__"; "hasOwnProperty";
   "__lookupGetter__"; "__lookupSetter__"; "isPrototypeOf";
   "propertyIsEnumerable"; "toString"; "valueOf"; "__proto__";
   "toLocaleString"].

(** [key in translations], where [translations] began as [{}]: the
    key is a property of the object itself or one it inherits. *)
Definition has_property (key : string) (translations : translations_t)
  : bool :=
  bool_decide (is_Some (translations !! key))
  || bool_decide (key ∈ Object_prototype).

(** What the call of [poHelper.mergeTranslation] throws: the value of
    that property of the helper's exports is [undefined]. *)
Definition not_a_function : js_error :=
  TypeError "poHelper.mergeTranslation is not a function".

(** The [CallExpression] visitor; [translations] is the object it
    writes to. *)
Definition visitor (filename : string) (astComments : list ast_comment)
    (functionNames : list string) (strict : bool)
    (n : node) (translations : translations_t) : result translations_t :=
  msgids ← maybeExtractMsgids n functionNames strict;
  match msgids with
  | None => Ok translations
  | Some [] => Ok translations
  | Some ((msgid :: _) as msgids) =>
      let translation := candidate filename astComments n msgid msgids in
      if has_property msgid translations
      then Err not_a_function
      else Ok (<[msgid := translation]> translations)
  end.

(** [parseFile] once the parser has run. *)
Definition parseFile_parsed (filename : string) (p : parsed)
    (commentRegex : string → bool) (functionNames : list string)
    (strict : bool) : result translations_t :=
  let astComments := foldl (onComment commentRegex) [] (parsed_comments p) in
  simple (visitor filename astComments functionNames strict)
    (parsed_ast p) ∅.

Section WithParser.
(** [parser.parse], of the [acorn-jsx] package. *)
Variable parser_parse : string → result parsed.

Definition parseFile (filename source : string)
    (commentRegex : string → bool) (functionNames : list string)
    (strict : bool) : result translations_t :=
  let source := strip_hashbang source in
  p ← parser_parse source;
  parseFile_parsed filename p commentRegex functionNames strict.
End WithParser.

End Extractor.

(** ** The orchestrator *)

(** The [translations] property of a catalog object that was read from a
    file: absent (or falsy), of a type other than [object], or an object
    with one dictionary of entries per context. *)
Inductive translations_field : Type :=
| NoTranslations
| NotAnObject
| Contexts (contexts : gmap string translations_t).

(** A catalog object ([poJSON]). *)
Record catalog : Type := Catalog {
  charset : string;
  headers : gmap string string;
  translations : translations_field
}.

(** The options the orchestrator reads. *)
Record options_t : Type := Options {
  joinExisting : bool;
  output : string;
  outputDir : option string;
  keyword : option (list string);
  addComments : option string;
  sanity : bool;
  projectIdVersion : option string;
  reportBugsTo : option string
}.

Global Instance options_t_eq_dec : EqDecision options_t.
Proof. solve_decision. Defined.

(** The world outside the program: the parser, the catalog reader on top
    of the file system, path resolution, and the two readings of the
    clock a run can make, each already rendered as
    [YYYY-MM-DD HH:MM+0000]. *)
Record world : Type := World {
  parser_parse : string → result parsed;
  po_parse_file : string → result catalog;
  path_resolve : string → string;
  path_join : string → string → string;
  clock_defaultHeaders : string;
  clock_update : string
}.

Module PoFile.
Import JsString.

Definition readPoFile (w : world) (filePath : string) : option catalog :=
  match po_parse_file w (path_resolve w filePath) with
  | Ok poJSON => Some poJSON
  | Err _ => None
  end.

(** A header whose value is [undefined] is left out of the dictionary. *)
Definition defaultHeaders (w : world)
    (projectIdVersion reportBugsTo : option string) : gmap string string :=
  let with_bugs (h : gmap string string) :=
    match reportBugsTo with
    | Some r => <["report-msgid-bugs-to" := r]> h
    | None => h
    end in
  with_bugs
    (list_to_map
       [("project-id-version",
          or_default projectIdVersion "PACKAGE VERSION");
        ("language-team", "LANGUAGE <LL@li.org>");
        ("pot-creation-date", clock_defaultHeaders w);
        ("po-revision-date", "YEAR-MO-DA HO:MI+ZONE");
        ("language", "");
        ("mime-version", "1.0");
        ("content-type", "text/plain; charset=utf-8");
        ("content-transfer-encoding", "8bit")]).

(** Modelled from the spec: [compareTranslations], which the
    orchestrator calls on the catalog helper and which the helper's
    source does not contain.  The specification has the creation date
    refreshed when "the accumulator differs from the original loaded
    entries (structural inequality, not merely reference)". *)
Definition compareTranslations (translations original : translations_t)
  : bool :=
  bool_decide (translations ≠ original).

End PoFile.

Module Orchestrator.
Import JsString.

(** The value of [options.keyword] once the keyword block has run. *)
Definition configure_keyword (kw : option (list string)) : list string :=
  match kw with
  | Some names =>
      foldl (λ (acc : list string) (index : nat),
               match acc !! index with
               | Some name => (acc ++ ["n" +:+ name])%list
               | None => acc
               end)
            names (seq 0 (length names))
  | None => ["gettext"; "ngettext"]
  end.

Definition set_keyword (options : options_t) (kw : list string)
  : options_t :=
  {| joinExisting := joinExisting options;
     output := output options;
     outputDir := outputDir options;
     keyword := Some kw;
     addComments := addComments options;
     sanity := sanity options;
     projectIdVersion := projectIdVersion options;
     reportBugsTo := reportBugsTo options |}.

(** The loop over [Object.keys(sources)]; the files come in the order
    of the keys. *)
Fixpoint each_source (w : world) (commentRegex : string → bool)
    (functionNames : list string) (strict : bool)
    (sources : list (string * string)) (translations : translations_t)
  : result translations_t :=
  match sources with
  | [] => Ok translations
  | (filename, source) :: rest =>
      newTranslations ←
        Extractor.parseFile (parser_parse w) filename source commentRegex
          functionNames strict;
      each_source w commentRegex functionNames strict rest
        (PoHelper.mergeTranslations translations newTranslations)
  end.

(** The argument of [readPoFile]. *)
Definition catalog_path (w : world) (options : options_t) : string :=
  path_resolve w
    (path_join w (or_default (outputDir options) "") (output options)).

(** The catalog the run makes when it has none from a file. *)
Definition fresh_catalog (w : world) (options : options_t) : catalog :=
  {| charset := "utf-8";
     headers :=
       PoFile.defaultHeaders w (projectIdVersion options)
         (reportBugsTo options);
     translations := Contexts {[ "" := ∅ ]} |}.

(** [poJSON] as the run has it once the existing catalog was looked for:
    the catalog read from the file, or a new one. *)
Definition initial_catalog (w : world) (options : options_t) : catalog :=
  let useExisting := joinExisting options in
  let poJSON :=
    if useExisting then PoFile.readPoFile w (catalog_path w options)
    else None in
  match poJSON with
  | Some poJSON => poJSON
  | None => fresh_catalog w options
  end.

(** [commentRegex]: the pattern built from the tag of the options, or
    from ["L10n:"]. *)
Definition commentRegex_for (options : options_t) : string → bool :=
  let tagName := or_default (addComments options) "L10n:" in
  Extractor.commentRegex_of tagName.

(** A call of [parse]: the two objects of the caller as the call leaves
    them, and what the call returns or throws.  The program has no
    statement that writes to [sources]. *)
Record run : Type := Run {
  left_options : options_t;
  left_sources : list (string * string);
  returned : result catalog
}.

(** [parse(sources, options)]. *)
Definition parse (w : world) (sources : list (string * string))
    (options : options_t) : run :=
  let useExisting := joinExisting options in
  let poJSON := initial_catalog w options in
  match translations poJSON with
  | Contexts contexts =>
      match contexts !! "" with
      | None =>
          Run options sources (Err (SyntaxError "Unexpected token u in JSON"))
      | Some original =>
          let translations := PoHelper.JSON_copy original in
          let options' :=
            set_keyword options (configure_keyword (keyword options)) in
          let commentRegex := commentRegex_for options in
          Run options' sources
            (translations ←
               each_source w commentRegex (configure_keyword (keyword options))
                 (sanity options) sources translations;
             let headers' :=
               if useExisting
                  && PoFile.compareTranslations translations original
               then <["pot-creation-date" := clock_update w]> (headers poJSON)
               else headers poJSON in
             Ok {| charset := charset poJSON;
                   headers := headers';
                   translations := Contexts (<["" := translations]> contexts) |})
      end
  | _ => Run options sources (Err InvalidPoFile)
  end.

End Orchestrator.

(** ** Sample inputs

    Small source files, as the parser delivers them, and small catalogs;
    the properties below are exercised on them. *)

Module Samples.

Definition str (s : string) : node := Literal (LitString s).

Definition call (f : string) (args : list node) (line : nat) : node :=
  CallExpression (Identifier f) args line.

Definition statement (e : node) : node :=
  OtherNode "ExpressionStatement" [e].

Definition program (body : list node) : node := OtherNode "Program" body.

(** [gettext("hello")] on line 1. *)
Definition hello_file : parsed :=
  Parsed (program [statement (call "gettext" [str "hello"] 1)]) [].

(** [ngettext("1 item", "N items", n)] on line 1. *)
Definition items_file : parsed :=
  Parsed
    (program
       [statement
          (call "ngettext" [str "1 item"; str "N items"; Identifier "n"] 1)])
    [].

(** A catalog with a translated [hello] and an entry the sources no
    longer have. *)
Definition hallo : translation :=
  {| msgid := "hello"; msgctxt := None; msgid_plural := None;
     msgstr := Some ["Hallo"];
     comments :=
       Some (Comments (Some "checked") (Some "old.js:7") None None None) |}.

Definition adieu : translation :=
  {| msgid := "bye"; msgctxt := None; msgid_plural := None;
     msgstr := Some ["Adieu"]; comments := None |}.

Definition german : translations_t :=
  <["hello" := hallo]> (<["bye" := adieu]> ∅).

Definition default_names : list string := ["gettext"; "ngettext"].

Definition default_regex : string → bool := Extractor.commentRegex_of "L10n:".

(** What the extractor finds in [hello_file], named [a.js]. *)
Definition extracted_hello : translations_t :=
  {[ "hello" :=
       {| msgid := "hello"; msgctxt := None; msgid_plural := None;
          msgstr := Some [];
          comments := Some (Comments None (Some "a.js:1") (Some "") None None) |} ]}.

(** [// L10n: greeting] on line 1, [gettext("hello")] on line 2. *)
Definition commented_file : parsed :=
  Parsed (program [statement (call "gettext" [str "hello"] 2)])
    [CommentToken false " L10n: greeting" 1].

(** A parser that knows one source text. *)
Definition toy_parser (source : string) : result parsed :=
  if String.eqb source "gettext('hello')" then Ok hello_file
  else Err (SyntaxError "Unexpected token").

(** A world without a catalog file, one whose catalog file has no
    [translations], and one with the sample catalog. *)
Definition world_with (po : string → result catalog) : world :=
  {| parser_parse := toy_parser;
     po_parse_file := po;
     path_resolve := λ p, p;
     path_join := λ a b, a +:+ b;
     clock_defaultHeaders := "2026-11-03 10:00+0000";
     clock_update := "2026-11-03 10:01+0000" |}.

Definition no_catalog : world :=
  world_with (λ _, Err (TypeError "ENOENT: no such file or directory")).

Definition damaged_catalog : world :=
  world_with (λ _, Ok (Catalog "utf-8" ∅ NoTranslations)).

Definition german_headers : gmap string string :=
  {[ "pot-creation-date" := "2020-02-02 20:20+0000" ]}.

Definition german_catalog : world :=
  world_with
    (λ _, Ok (Catalog "utf-8" german_headers (Contexts {[ "" := german ]}))).

Definition joining : options_t :=
  {| joinExisting := true; output := "messages.pot"; outputDir := None;
     keyword := None; addComments := None; sanity := false;
     projectIdVersion := None; reportBugsTo := None |}.

Definition with_keyword : options_t :=
  {| joinExisting := false; output := "messages.pot"; outputDir := None;
     keyword := Some ["_"]; addComments := None; sanity := false;
     projectIdVersion := None; reportBugsTo := None |}.

(** [<a title={gettext("title")}>{gettext("body")}</a>]. *)
Definition markup_file : parsed :=
  Parsed
    (program
       [statement
          (JSXElement
             [JSXAttribute
                (Some (JSXExpressionContainer
                         (call "gettext" [str "title"] 1)))]
             [JSXExpressionContainer (call "gettext" [str "body"] 1)])])
    [].

(** [<a disabled title={gettext("t")}></a>]: the parser gives the
    attribute [disabled] the value [null]. *)
Definition disabled_file : parsed :=
  Parsed
    (program
       [statement
          (JSXElement
             [JSXAttribute None;
              JSXAttribute
                (Some (JSXExpressionContainer (call "gettext" [str "t"] 1)))]
             [])])
    [].

(** [<a title={gettext("x")}>{gettext("x")}</a>]. *)
Definition echo_file : parsed :=
  Parsed
    (program
       [statement
          (JSXElement
             [JSXAttribute
                (Some (JSXExpressionContainer (call "gettext" [str "x"] 1)))]
             [JSXExpressionContainer (call "gettext" [str "x"] 1)])])
    [].

(** [// L10n: hi] on line 1, [gettext("a"); // L10n: hi] on line 2. *)
Definition repeated_comment_file : parsed :=
  Parsed (program [statement (call "gettext" [str "a"] 2)])
    [CommentToken false " L10n: hi" 1; CommentToken false " L10n: hi" 2].

(** [gettext("hello")] on line 1 and again on line 3. *)
Definition twice_file : parsed :=
  Parsed
    (program [statement (call "gettext" [str "hello"] 1);
              statement (call "gettext" [str "hello"] 3)])
    [].

(** An entry that only the new extraction has. *)
Definition extracted_new : translations_t :=
  {[ "new" :=
       {| msgid := "new"; msgctxt := None; msgid_plural := None;
          msgstr := Some [];
          comments := Some (Comments None (Some "b.js:4") (Some "") None None) |} ]}.

End Samples.

Import JsString PoHelper Extractor PoFile Orchestrator.
Local Open Scope list_scope.

(** ** Notions the properties are stated with *)

(** ** Induction on syntax trees *)

Section NodeInduction.
Variable P : node → Prop.
Hypothesis HIdentifier : ∀ name, P (Identifier name).
Hypothesis HLiteral : ∀ v, P (Literal v).
Hypothesis HBinary : ∀ op l r, P l → P r → P (BinaryExpression op l r).
Hypothesis HMember : ∀ o p c, P o → P p → P (MemberExpression o p c).
Hypothesis HCall : ∀ callee args line,
  P callee → Forall P args → P (CallExpression callee args line).
Hypothesis HElement : ∀ attrs kids,
  Forall P attrs → Forall P kids → P (JSXElement attrs kids).
Hypothesis HAttributeNone : P (JSXAttribute None).
Hypothesis HAttributeSome : ∀ v, P v → P (JSXAttribute (Some v)).
Hypothesis HSpread : ∀ a, P a → P (JSXSpreadAttribute a).
Hypothesis HContainer : ∀ e, P e → P (JSXExpressionContainer e).
Hypothesis HEmpty : P JSXEmptyExpression.
Hypothesis HOther : ∀ type subnodes,
  Forall P subnodes → P (OtherNode type subnodes).

Fixpoint node_nested_ind (n : node) : P n :=
  let all :=
    fix all (l : list node) : Forall P l :=
      match l with
      | [] => @List.Forall_nil node P
      | x :: l' => @List.Forall_cons node P x l' (node_nested_ind x) (all l')
      end in
  match n with
  | Identifier name => HIdentifier name
  | Literal v => HLiteral v
  | BinaryExpression op l r =>
      HBinary op l r (node_nested_ind l) (node_nested_ind r)
  | MemberExpression o p c =>
      HMember o p c (node_nested_ind o) (node_nested_ind p)
  | CallExpression callee args line =>
      HCall callee args line (node_nested_ind callee) (all args)
  | JSXElement attrs kids => HElement attrs kids (all attrs) (all kids)
  | JSXAttribute None => HAttributeNone
  | JSXAttribute (Some v) => HAttributeSome v (node_nested_ind v)
  | JSXSpreadAttribute a => HSpread a (node_nested_ind a)
  | JSXExpressionContainer e => HContainer e (node_nested_ind e)
  | JSXEmptyExpression => HEmpty
  | OtherNode type subnodes => HOther type subnodes (all subnodes)
  end.
End NodeInduction.

(** What [mergeTranslations] does to one key, given the entry each side
    has for it. *)
Definition merge_entry (o n : option translation) : option translation :=
  match o, n with
  | Some o, Some n => Some (mergeTranslation o n)
  | Some o, None => Some o
  | None, _ => n
  end.

(** The shape of every entry the extractor builds. *)
Definition extractor_entry (t : translation) : Prop :=
  msgctxt t = None
  ∧ (msgstr t = Some [] ∨ msgstr t = Some [""; ""])
  ∧ ∃ r e, comments t = Some (Comments None (Some r) (Some e) None None).

(** The text of a node that qualifies as a string: the value of the
    literal, or the texts of the two operands one after the other. *)
Fixpoint string_text (n : node) : string :=
  match n with
  | Literal (LitString s) => s
  | BinaryExpression _ l r => string_text l +:+ string_text r
  | _ => ""
  end.

(** An argument that is there and qualifies as a string. *)
Definition qualifies (o : option node) : bool := from_option isString false o.

Definition text_of (o : option node) : string := from_option string_text "" o.

(** The comment the callback keeps for a token, if it keeps one. *)
Definition kept (commentRegex : string → bool) (tok : comment_token)
  : option ast_comment :=
  let text := trim (strip_leading_slash (token_text tok)) in
  if commentRegex (token_text tok) && truthy text
  then Some (AstComment (token_line tok) text) else None.

(** A comment that starts on the line of the call or on the line before. *)
Definition near (line : nat) (c : ast_comment) : bool :=
  bool_decide (comment_line c = line) || bool_decide (comment_line c + 1 = line).

(** The extracted comment of the entry a mapping has for a msgid. *)
Definition attached_text (t : translations_t) (k : string) : option string :=
  e ← t !! k; c ← comments e; extracted c.

Fixpoint all_space (s : string) : bool :=
  match s with
  | EmptyString => true
  | String c s' => is_space c && all_space s'
  end.

(** The accumulator a run ends with, from the entries it starts with,
    when every file is read without an error. *)
Definition extraction (w : world) (sources : list (string * string))
    (options : options_t) (start : translations_t) : result translations_t :=
  each_source w (commentRegex_for options)
    (configure_keyword (keyword options)) (sanity options) sources start.

(** The edges of the walk: from a node to the nodes its rule hands to the
    continuation.  A markup element leads to its attributes and its
    children, an attribute to its value when that is an expression
    container, a spread attribute to its argument, an expression
    container to its expression; the other edges are those of the base
    grammar. *)
Inductive walk_edge : node → node → Prop :=
| edge_left op l r : walk_edge (BinaryExpression op l r) l
| edge_right op l r : walk_edge (BinaryExpression op l r) r
| edge_object o p c : walk_edge (MemberExpression o p c) o
| edge_computed_property o p : walk_edge (MemberExpression o p true) p
| edge_callee callee args line : walk_edge (CallExpression callee args line) callee
| edge_argument callee args line a :
    a ∈ args → walk_edge (CallExpression callee args line) a
| edge_attribute attrs kids a : a ∈ attrs → walk_edge (JSXElement attrs kids) a
| edge_child attrs kids k : k ∈ kids → walk_edge (JSXElement attrs kids) k
| edge_attribute_value e :
    walk_edge (JSXAttribute (Some (JSXExpressionContainer e)))
      (JSXExpressionContainer e)
| edge_spread_argument a : walk_edge (JSXSpreadAttribute a) a
| edge_container_expression e : walk_edge (JSXExpressionContainer e) e
| edge_subnode type subnodes x :
    x ∈ subnodes → walk_edge (OtherNode type subnodes) x.

(** [n] is [root] or lies below it along the edges of the walk. *)
Definition nested_in (root n : node) : Prop := rtc walk_edge root n.

(** Every markup attribute in the tree has a value. *)
Definition attributes_valued (root : node) : Prop :=
  ∀ n, nested_in root n → n ≠ JSXAttribute None.

(** A comment text whose lines are all different and none of them empty
    (or that is empty): merging it with itself gives it back. *)
Definition clean_comment (s : string) : Prop :=
  s = "" ∨ (NoDup (split_newline s) ∧ "" ∉ split_newline s).

Definition clean_entry (t : translation) : Prop :=
  ∀ c, comments t = Some c →
       (∀ r, reference c = Some r → clean_comment r)
       ∧ (∀ e, extracted c = Some e → clean_comment e).

(** ** Notions for the further properties *)

(** More sample inputs. *)
Module MoreSamples.

(** What the extractor finds in [Samples.repeated_comment_file]. *)
Definition extracted_a : translations_t :=
  {[ "a" :=
       {| msgid := "a"; msgctxt := None; msgid_plural := None;
          msgstr := Some [];
          comments :=
            Some (Comments None (Some "a.js:2") (Some "L10n: hi
L10n: hi") None None) |} ]}.

Definition one_source : list (string * string) :=
  [("a.js", "gettext('hello')")].

End MoreSamples.

(** The items of [l] that are not empty, not in [seen] and not earlier
    in [l], in the order of [l]. *)
Fixpoint first_lines (seen l : list string) : list string :=
  match l with
  | [] => []
  | x :: l' =>
      if truthy x && bool_decide (x ∉ seen)
      then x :: first_lines (seen ++ [x]) l'
      else first_lines (seen ++ [x]) l'
  end.

Fixpoint has_newline (s : string) : bool :=
  match s with
  | EmptyString => false
  | String c s' => Ascii.eqb c newline || has_newline s'
  end.

(** An entry whose comments have a reference and an extracted text. *)
Definition has_both_comments (e : translation) : Prop :=
  ∃ c r x, comments e = Some c ∧ reference c = Some r ∧ extracted c = Some x.

(** Every entry sits under its own msgid. *)
Definition keyed_by_msgid (t : translations_t) : Prop :=
  map_Forall (λ k e, msgid e = k) t.

(** No file of [sources] has an entry for [k]. *)
Definition not_extracted (w : world) (options : options_t)
    (sources : list (string * string)) (k : string) : Prop :=
  ∀ filename source E,
    (filename, source) ∈ sources →
    parseFile (parser_parse w) filename source (commentRegex_for options)
      (configure_keyword (keyword options)) (sanity options) = Ok E →
    E !! k = None.

(** Each msgid of [st'] is one of [st] or the msgid extracted at a call
    on or below [n]. *)
Definition grown_by_calls (names : list string) (strict : bool)
    (n : node) (st st' : translations_t) : Prop :=
  ∀ k, is_Some (st' !! k) →
       is_Some (st !! k)
       ∨ ∃ callee args line rest,
           nested_in n (CallExpression callee args line)
           ∧ maybeExtractMsgids (CallExpression callee args line) names strict
             = Ok (Some (k :: rest)).

(** Where an error of the walk below [n] comes from: an attribute
    without a value, or the visitor at a call. *)
Definition error_origin {S} (found : node → S → result S)
    (n : node) (e : js_error) : Prop :=
  (e = TypeError "Cannot read property 'type' of null"
   ∧ nested_in n (JSXAttribute None))
  ∨ ∃ callee args line st,
      nested_in n (CallExpression callee args line)
      ∧ found (CallExpression callee args line) st = Err e.

(** A line terminator occurs in [s]. *)

Fixpoint has_terminator (s : string) : bool :=
  match s with
  | EmptyString => false
  | String c s' => is_line_terminator c || has_terminator s'
  end.


Definition starts_with_space (s : string) : bool :=
  match s with
  | String c _ => is_space c
  | EmptyString => false
  end.

(** The visitor on a list of calls, one after the other. *)
Fixpoint visit_all {S} (found : node → S → result S) (calls : list node)
    (st : S) : result S :=
  match calls with
  | [] => Ok st
  | c :: rest => st' ← found c st; visit_all found rest st'
  end.

(** A visitor that only notes the call it is given. *)
Definition note_call (c : node) (log : list node) : result (list node) :=
  Ok (log ++ [c]).

(** What the walk of [n] notes, independently of the log it starts
    with, is what any visitor is run on. *)
Definition walks_as (n : node) : Prop :=
  ∀ acc l, simple note_call n acc = Ok l →
    ∃ calls, l = acc ++ calls
             ∧ ∀ S (found : node → S → result S) st,
                 simple found n st = visit_all found calls st.

(** Each entry of [st'] is one of [st] or the entry built at a call on
    or below [n] at which its msgid is extracted. *)
Definition built_by_calls (filename : string) (astComments : list ast_comment)
    (names : list string) (strict : bool)
    (n : node) (st st' : translations_t) : Prop :=
  ∀ k e, st' !! k = Some e →
         st !! k = Some e
         ∨ ∃ callee args line rest,
             nested_in n (CallExpression callee args line)
             ∧ maybeExtractMsgids (CallExpression callee args line)
                 names strict = Ok (Some (k :: rest))
             ∧ e = candidate filename astComments
                     (CallExpression callee args line) k (k :: rest).

(** The msgid extracted at a node, if one is. *)
Definition extracted_at (names : list string) (strict : bool) (c : node)
  : option string :=
  match maybeExtractMsgids c names strict with
  | Ok (Some (k :: _)) => Some k
  | _ => None
  end.

(** A comment text as a merge leaves it: its lines are different from
    each other and none is empty. *)
Definition normal_comment (r : string) : Prop :=
  ∃ L, NoDup L ∧ ("" ∉ L) ∧ Forall (λ x, has_newline x = false) L
       ∧ r = join_newline L.

(** Every line of [x] that is not empty is a line of [r]. *)
Definition covers (r x : string) : Prop :=
  ∀ l, l ∈ split_newline x → l = "" ∨ l ∈ split_newline r.

(** The comments of an extracted entry with reference [p.1] and
    extracted text [p.2]. *)
Definition extracted_comments (p : string * string) : option comments_t :=
  Some (Comments None (Some p.1) (Some p.2) None None).

(** * Properties *)


(** ** The model on the examples of the specification *)

Example mergeComment_drops_the_repeated_line :
  mergeComment (Some "a
b") (Some "b
c") = Some "a
b
c".
Proof. reflexivity. Qed.

Example concatenation_is_put_together :
  maybeExtractMsgids
    (Samples.call "gettext"
       [BinaryExpression "+" (Samples.str "foo") (Samples.str "bar")] 1)
    Samples.default_names false
  = Ok (Some ["foobar"]).
Proof. reflexivity. Qed.

(** [t.call(ctx, "hello")] and [i18n.gettext.call(ctx, "hello")]. *)
Example detached_call_drops_the_context :
  getFunctionNameAndArguments
    (CallExpression
       (MemberExpression (Identifier "t") (Identifier "call") false)
       [Identifier "ctx"; Samples.str "hello"] 1)
  = Some (Some "t", [Samples.str "hello"])
  ∧ getFunctionNameAndArguments
      (CallExpression
         (MemberExpression
            (MemberExpression (Identifier "i18n") (Identifier "gettext") false)
            (Identifier "call") false)
         [Identifier "ctx"; Samples.str "hello"] 1)
    = Some (Some "gettext", [Samples.str "hello"]).
Proof. split; reflexivity. Qed.

(** [<input disabled />]: the rule for attributes reads the type of a
    value that is [null]. *)
Example attribute_without_value_throws :
  parseFile_parsed "a.js"
    (Parsed (Samples.program
               [Samples.statement (JSXElement [JSXAttribute None] [])]) [])
    Samples.default_regex Samples.default_names false
  = Err (TypeError "Cannot read property 'type' of null").
Proof. reflexivity. Qed.

(** ** Exceptions *)

Lemma bind_Ok {E A B} (r : js_result E A) (k : A → js_result E B) b :
  (r ≫= k) = Ok b ↔ ∃ a, r = Ok a ∧ k a = Ok b.
Proof.
  destruct r; simpl; split.
  - eauto.
  - by intros (? & [= ->] & ?).
  - intros [=].
  - by intros (? & [=] & ?).
Qed.

(** ** The walker threads its state *)

Lemma simple_unfold {S} (found : node → S → result S) n st :
  simple found n st =
    (st' ← walkBase (simple found) n st;
     match n with
     | CallExpression _ _ _ => found n st'
     | _ => Ok st'
     end).
Proof. by destruct n. Qed.

Section WalkRelation.
Context {S : Type} (found : node → S → result S) (R : S → S → Prop).
Hypothesis R_refl : ∀ st, R st st.
Hypothesis R_trans : ∀ a b c, R a b → R b c → R a c.
Hypothesis found_R : ∀ n st st', found n st = Ok st' → R st st'.

Lemma each_related l :
  Forall (λ n, ∀ st st', simple found n st = Ok st' → R st st') l →
  ∀ st st', each (simple found) l st = Ok st' → R st st'.
Proof.
  induction 1 as [|x l Hx _ IH]; simpl; intros st st'.
  - intros [= ->]. apply R_refl.
  - intros (st1 & H1 & H2)%bind_Ok. eauto.
Qed.

(** Whatever relates the state before and after each visit relates the
    state before and after the walk. *)
Lemma simple_related n :
  ∀ st st', simple found n st = Ok st' → R st st'.
Proof.
  induction n using node_nested_ind; intros st st'; rewrite simple_unfold;
    intros (st1 & Hbase & Hfound)%bind_Ok; simpl in Hbase.
  - simplify_eq; eauto.
  - simplify_eq; eauto.
  - apply bind_Ok in Hbase as (st2 & H1 & H2). simplify_eq. eauto.
  - apply bind_Ok in Hbase as (st2 & H1 & H2). destruct c; simplify_eq; eauto.
  - apply bind_Ok in Hbase as (st2 & H1 & H2).
    apply R_trans with st1; [|eauto].
    apply R_trans with st2; [eauto|].
    apply (each_related args); [assumption | exact H2].
  - apply bind_Ok in Hbase as (st2 & H1 & H2). simplify_eq.
    apply R_trans with st2.
    + apply (each_related attrs); [assumption | exact H1].
    + apply (each_related kids); [assumption | exact H2].
  - discriminate.
  - destruct n; simplify_eq; eauto.
  - simplify_eq; eauto.
  - simplify_eq; eauto.
  - simplify_eq; eauto.
  - simplify_eq. apply (each_related subnodes); [assumption | exact Hbase].
Qed.
End WalkRelation.

(** ** Merging catalogs, key by key *)

Lemma merge_step_lookup msgId newT (acc : translations_t) k :
  merge_step msgId newT acc !! k =
    if decide (msgId = k) then merge_entry (acc !! k) (Some newT) else acc !! k.
Proof.
  unfold merge_step. case_decide as Hk.
  - subst k. destruct (acc !! msgId) eqn:E; simpl; by rewrite lookup_insert_eq.
  - destruct (acc !! msgId); by rewrite lookup_insert_ne.
Qed.

Lemma mergeTranslations_lookup (old new : translations_t) k :
  mergeTranslations old new !! k = merge_entry (old !! k) (new !! k).
Proof.
  unfold mergeTranslations, JSON_copy. revert k.
  apply (map_fold_weak_ind (λ (r m : translations_t),
           ∀ k, r !! k = merge_entry (old !! k) (m !! k))).
  - intros k. rewrite lookup_empty. by destruct (old !! k).
  - intros i x m r Hi IH k. rewrite merge_step_lookup.
    case_decide as Hk.
    + subst k. rewrite IH, Hi, lookup_insert_eq. by destruct (old !! i).
    + by rewrite IH, lookup_insert_ne.
Qed.

Lemma mergeTranslations_dom (old new : translations_t) :
  dom (mergeTranslations old new) = dom old ∪ dom new.
Proof.
  apply set_eq. intros k.
  rewrite elem_of_union, !elem_of_dom, mergeTranslations_lookup.
  destruct (old !! k), (new !! k); simpl; split; intros Hk;
    try (left; by eauto); try (right; by eauto); try (by eauto).
  by destruct Hk as [[? [=]]|[? [=]]].
Qed.

(** ** What the extractor puts into an entry *)

Lemma candidate_entry filename astComments n msgid msgids :
  extractor_entry (candidate filename astComments n msgid msgids).
Proof.
  unfold extractor_entry, candidate; simpl. split; [done|]. split; [|eauto].
  destruct (1 <? length msgids)%nat; eauto.
Qed.

Lemma has_property_false k (st : translations_t) :
  has_property k st = false ↔ st !! k = None ∧ k ∉ Object_prototype.
Proof.
  unfold has_property.
  rewrite orb_false_iff, !bool_decide_eq_false, <- eq_None_not_Some. done.
Qed.

(** The visitor returns in two ways: it leaves the object as it is, at
    a node that yields no string, or it stores the entry built at the
    node under a msgid the object had no property for. *)
Lemma visitor_Ok filename astComments names strict n
    (st st' : translations_t) :
  visitor filename astComments names strict n st = Ok st' →
  (st' = st ∧ ∀ k rest,
      maybeExtractMsgids n names strict ≠ Ok (Some (k :: rest)))
  ∨ ∃ k rest,
      maybeExtractMsgids n names strict = Ok (Some (k :: rest))
      ∧ has_property k st = false
      ∧ st' = <[k := candidate filename astComments n k (k :: rest)]> st.
Proof.
  unfold visitor. intros (ms & Hms & Hst)%bind_Ok. rewrite Hms.
  destruct ms as [[|k rest]|]; simplify_eq; [by left | | by left].
  right. exists k, rest. destruct (has_property k st); by simplify_eq.
Qed.

Lemma visitor_entries filename astComments names strict n
    (st st' : translations_t) :
  visitor filename astComments names strict n st = Ok st' →
  map_Forall (λ _, extractor_entry) st → map_Forall (λ _, extractor_entry) st'.
Proof.
  intros [[-> _]|(k & rest & _ & _ & ->)]%visitor_Ok Hall; [done|].
  apply map_Forall_insert_2; [apply candidate_entry | done].
Qed.

Lemma parseFile_parsed_entries filename p regex names strict t :
  parseFile_parsed filename p regex names strict = Ok t →
  map_Forall (λ _, extractor_entry) t.
Proof.
  unfold parseFile_parsed. intros H.
  refine (simple_related _ (λ st st' : translations_t,
           map_Forall (λ _, extractor_entry) st →
           map_Forall (λ _, extractor_entry) st') _ _ _ _ _ _ H _).
  - auto.
  - auto.
  - intros n st st'. apply visitor_entries.
  - apply map_Forall_empty.
Qed.

(** ** Claims about the catalog merge *)

(** C8.  For every pair of entry mappings, the keys of
    [mergeTranslations old new] include the keys of [old], an old entry
    whose msgid the new mapping lacks is in the result unchanged, and an
    entry whose msgid only the new mapping has is inserted as it is. *)
Theorem C8_merge_keeps_old_and_inserts_new (old new : translations_t) :
  dom old ⊆ dom (mergeTranslations old new)
  ∧ (∀ k o, old !! k = Some o → new !! k = None →
       mergeTranslations old new !! k = Some o)
  ∧ (∀ k n, old !! k = None → new !! k = Some n →
       mergeTranslations old new !! k = Some n).
Proof.
  split; [|split].
  - rewrite mergeTranslations_dom. set_solver.
  - intros k o Ho Hn. by rewrite mergeTranslations_lookup, Ho, Hn.
  - intros k n Ho Hn. by rewrite mergeTranslations_lookup, Ho, Hn.
Qed.

Lemma C8_merge_keeps_old_and_inserts_new_witness :
  mergeTranslations Samples.german Samples.extracted_new !! "bye"
    = Some Samples.adieu
  ∧ mergeTranslations Samples.german Samples.extracted_new !! "new"
    = Samples.extracted_new !! "new".
Proof.
  destruct (C8_merge_keeps_old_and_inserts_new
              Samples.german Samples.extracted_new) as (_ & Hold & Hnew).
  split.
  - apply Hold; vm_compute; reflexivity.
  - apply Hnew; vm_compute; reflexivity.
Defined.

(** The claim C1 fails on the translated [hello] of the sample catalog:
    the extractor finds [gettext("hello")] again, and the merged entry
    has the empty [msgstr] of the extracted entry in place of
    [["Hallo"]]. *)
Lemma C1_translated_msgstr_is_replaced :
  parseFile_parsed "a.js" Samples.hello_file Samples.default_regex
    Samples.default_names false = Ok Samples.extracted_hello
  ∧ Samples.german !! "hello" = Some Samples.hallo
  ∧ msgstr Samples.hallo = Some ["Hallo"]
  ∧ msgstr <$> (mergeTranslations Samples.german Samples.extracted_hello
                  !! "hello") = Some (Some [])
  ∧ msgstr <$> (mergeTranslations Samples.german Samples.extracted_hello
                  !! "hello") ≠ Some (msgstr Samples.hallo).
Proof. repeat split; try (vm_compute; reflexivity). vm_compute. discriminate. Qed.

(** C1, amended.  The merged entry takes the [msgstr] of the new entry
    whenever the new entry has one, and keeps the old one only
    otherwise; every entry the extractor builds has one ([[]] or
    [["", ""]]), so merging what was extracted for a msgid replaces the
    [msgstr] the catalog had for it.  No msgid that only the old catalog
    has is dropped, and its entry is unchanged. *)
Theorem C1_merge_takes_the_extracted_msgstr (old : translations_t)
    filename p regex names strict (new : translations_t) :
  parseFile_parsed filename p regex names strict = Ok new →
  (∀ o n, msgstr (mergeTranslation o n)
          = match msgstr n with Some s => Some s | None => msgstr o end)
  ∧ (∀ k o n, old !! k = Some o → new !! k = Some n →
       ∃ m, mergeTranslations old new !! k = Some m
            ∧ msgstr m = msgstr n
            ∧ (msgstr n = Some [] ∨ msgstr n = Some [""; ""]))
  ∧ (∀ k o, old !! k = Some o → new !! k = None →
       mergeTranslations old new !! k = Some o)
  ∧ dom old ⊆ dom (mergeTranslations old new).
Proof.
  intros Hnew. split; [done|]. split; [|split].
  - intros k o n Ho Hn.
    destruct (parseFile_parsed_entries _ _ _ _ _ _ Hnew k n Hn)
      as (_ & Hs & _).
    exists (mergeTranslation o n).
    rewrite mergeTranslations_lookup, Ho, Hn. split; [done|]. split; [|done].
    simpl. unfold assign_field. by destruct Hs as [-> | ->].
  - intros k o Ho Hn. by rewrite mergeTranslations_lookup, Ho, Hn.
  - rewrite mergeTranslations_dom. set_solver.
Qed.

Lemma C1_merge_takes_the_extracted_msgstr_witness :
  (∃ m, mergeTranslations Samples.german Samples.extracted_hello !! "hello"
          = Some m ∧ msgstr m = Some [])
  ∧ mergeTranslations Samples.german Samples.extracted_hello !! "bye"
    = Some Samples.adieu.
Proof.
  destruct (C1_merge_takes_the_extracted_msgstr Samples.german "a.js"
              Samples.hello_file Samples.default_regex Samples.default_names
              false Samples.extracted_hello)
    as (_ & Hboth & Hold & _).
  - vm_compute; reflexivity.
  - split.
    + destruct (Hboth "hello" Samples.hallo
                  {| msgid := "hello"; msgctxt := None; msgid_plural := None;
                     msgstr := Some [];
                     comments :=
                       Some (Comments None (Some "a.js:1") (Some "") None None) |})
        as (m & Hm & Hs & _); [vm_compute; reflexivity ..|].
      exists m. split; [exact Hm | exact Hs].
    + apply Hold; vm_compute; reflexivity.
Defined.

(** ** Strings *)

Lemma append_String c s t : String c s +:+ t = String c (s +:+ t).
Proof. reflexivity. Qed.

Lemma append_empty s : "" +:+ s = s.
Proof. reflexivity. Qed.

Lemma prefix_append tag text :
  String.prefix tag text = true ↔ ∃ rest, text = tag +:+ rest.
Proof.
  revert text. induction tag as [|a tag IH]; intros text.
  - destruct text; simpl; split; eauto.
  - destruct text as [|b text]; simpl.
    + split; [done | intros [? H]; by rewrite append_String in H].
    + destruct (ascii_dec a b) as [->|Hab].
      * rewrite IH. split; intros [rest Hr]; exists rest;
          rewrite append_String in *; congruence.
      * split; [done | intros [? H]; rewrite append_String in H; congruence].
Qed.

(** ** Claims about call sites *)

Lemma extractStr_isString n :
  isString n = true → extractStr n = Ok (string_text n).
Proof.
  unfold isString. induction n as [| v | op l IHl r IHr | | | | | | | |];
    simpl; try discriminate.
  - by destruct v.
  - intros (_ & [Hl Hr]%andb_prop)%andb_prop.
    by rewrite (IHl Hl), (IHr Hr).
Qed.

(** C3.  At a call site whose resolved name is one of the allowed names:
    if the name begins with "n" and the first and the second argument
    both qualify as strings, the two strings are extracted; otherwise, if
    the first argument qualifies, that one string is extracted;
    otherwise the call raises the error that carries the first argument
    when strict mode is on, and is skipped without an error when it is
    off. *)
Theorem C3_extraction_at_an_allowed_call n names strict name args :
  getFunctionNameAndArguments n = Some (Some name, args) →
  indexOf name names ≠ None →
  maybeExtractMsgids n names strict =
    if starts_with_n name && qualifies (args !! 0) && qualifies (args !! 1)
    then Ok (Some [text_of (args !! 0); text_of (args !! 1)])
    else if qualifies (args !! 0)
    then Ok (Some [text_of (args !! 0)])
    else if strict then Err (CouldNotParseTranslatable (args !! 0))
    else Ok None.
Proof.
  intros Hcall Hallowed. unfold maybeExtractMsgids. rewrite Hcall.
  unfold not_allowed. rewrite bool_decide_eq_false_2 by done.
  destruct (args !! 0) as [a1|] eqn:E1; simpl.
  2:{ by rewrite andb_false_r. }
  destruct (args !! 1) as [a2|] eqn:E2; simpl.
  - destruct (starts_with_n name); simpl.
    + destruct (isString a1) eqn:H1; simpl; [|done].
      destruct (isString a2) eqn:H2; simpl; by rewrite !extractStr_isString.
    + destruct (isString a1) eqn:H1; simpl; [|done].
      by rewrite !extractStr_isString.
  - rewrite andb_false_r.
    destruct (isString a1) eqn:H1; simpl; [|done].
    by rewrite !extractStr_isString.
Qed.

Lemma C3_extraction_at_an_allowed_call_witness :
  maybeExtractMsgids
    (Samples.call "ngettext"
       [Samples.str "1 item"; Samples.str "N items"; Identifier "n"] 1)
    Samples.default_names true
  = Ok (Some ["1 item"; "N items"])
  ∧ maybeExtractMsgids (Samples.call "gettext" [Identifier "x"] 1)
      Samples.default_names true
    = Err (CouldNotParseTranslatable (Some (Identifier "x")))
  ∧ maybeExtractMsgids (Samples.call "gettext" [Identifier "x"] 1)
      Samples.default_names false
    = Ok None.
Proof.
  split; [|split].
  - apply (C3_extraction_at_an_allowed_call _ Samples.default_names true
             "ngettext"
             [Samples.str "1 item"; Samples.str "N items"; Identifier "n"]);
      [reflexivity | vm_compute; discriminate].
  - apply (C3_extraction_at_an_allowed_call _ Samples.default_names true
             "gettext" [Identifier "x"]);
      [reflexivity | vm_compute; discriminate].
  - apply (C3_extraction_at_an_allowed_call _ Samples.default_names false
             "gettext" [Identifier "x"]);
      [reflexivity | vm_compute; discriminate].
Defined.


(** ** Claims about comments *)

Lemma onComment_kept regex acc tok :
  onComment regex acc tok = acc ++ option_list (kept regex tok).
Proof.
  unfold onComment, kept.
  destruct (regex (token_text tok)); simpl; [|by rewrite app_nil_r].
  destruct (truthy _); simpl; [done | by rewrite app_nil_r].
Qed.

Lemma captured_omap regex toks acc :
  foldl (onComment regex) acc toks = acc ++ omap (kept regex) toks.
Proof.
  revert acc. induction toks as [|tok toks IH]; intros acc; simpl.
  - by rewrite app_nil_r.
  - rewrite IH, onComment_kept. destruct (kept regex tok); simpl.
    + by rewrite <- app_assoc.
    + by rewrite app_nil_r.
Qed.

Lemma kept_truthy regex tok c : kept regex tok = Some c → truthy (comment_value c) = true.
Proof.
  unfold kept. destruct (regex _); simpl; [|done].
  destruct (truthy _) eqn:E; [|done]. by intros [= <-].
Qed.

Lemma findComments_filter comments line :
  Forall (λ c, truthy (comment_value c) = true) comments →
  findComments comments line
  = join_newline (comment_value <$> filter (λ c, near line c = true) comments).
Proof.
  unfold findComments. intros Hall. f_equal.
  induction Hall as [|c cs Hc _ IH]; [done|].
  simpl. rewrite filter_cons. fold (near line c). destruct (near line c) eqn:E; simpl.
  - rewrite Hc. by f_equal.
  - done.
Qed.

Lemma match_tag_unfold tag text :
  match_tag tag text =
    String.prefix tag text
    || match text with
       | String c rest => is_space c && match_tag tag rest
       | EmptyString => false
       end.
Proof. by destruct text. Qed.

Lemma match_tag_spec tag text :
  match_tag tag text = true
  ↔ ∃ ws rest, text = ws +:+ tag +:+ rest ∧ all_space ws = true.
Proof.
  split.
  - induction text as [|c text IH]; rewrite match_tag_unfold;
      intros [Hp|Hs]%orb_prop.
    + apply prefix_append in Hp as [rest ->]. by exists "", rest.
    + done.
    + apply prefix_append in Hp as [rest ->]. by exists "", rest.
    + apply andb_prop in Hs as [Hc Ht].
      destruct (IH Ht) as (ws & rest & -> & Hws).
      exists (String c ws), rest. simpl. by rewrite Hc, Hws, append_String.
  - intros (ws & rest & -> & Hws). induction ws as [|c ws IH].
    + rewrite append_empty, match_tag_unfold.
      rewrite (proj2 (prefix_append tag (tag +:+ rest))) by eauto. done.
    + simpl in Hws. apply andb_prop in Hws as [Hc Hws].
      rewrite append_String, match_tag_unfold. rewrite Hc, (IH Hws).
      by rewrite orb_true_r.
Qed.

Lemma match_slash_spec text :
  match_slash text = true ↔ ∃ rest, text = String slash rest.
Proof.
  destruct text as [|c text]; simpl.
  - split; [done | by intros [? [=]]].
  - destruct (Ascii.eqb_spec c slash) as [->|Hc].
    + split; eauto.
    + split; [done | intros [? [=]]; congruence].
Qed.

(** The claim C5 fails on [// L10n: greeting] above [gettext("hello")]:
    the text attached to the entry still begins with the tag. *)
Lemma C5_tag_stays_in_the_attached_text :
  ∃ t, parseFile_parsed "a.js" Samples.commented_file Samples.default_regex
         Samples.default_names false = Ok t
       ∧ attached_text t "hello" = Some "L10n: greeting"
       ∧ attached_text t "hello" ≠ Some "greeting".
Proof.
  eexists. split; [vm_compute; reflexivity|].
  split; [vm_compute; reflexivity | vm_compute; discriminate].
Qed.

(** C5, amended.  A comment is kept as a candidate only if its text
    matches the pattern, that is, has the tag after any leading white
    space or begins with a slash (and only if something is left of
    it); the text kept is the text of the comment without one leading
    slash and without the white space around it, the tag staying in
    it.  The text attached to a call on line [line] is made of the kept
    comments that start on [line] or on the line before, in the order of
    the source, with a newline between two of them.  A comment that does
    not match is not kept, so never attached. *)
Theorem C5_comments_kept_and_attached (tag : string) toks line :
  let commentRegex := commentRegex_of tag in
  let astComments := foldl (onComment commentRegex) [] toks in
  (∀ text, commentRegex text = true
           ↔ (∃ ws rest, text = ws +:+ tag +:+ rest ∧ all_space ws = true)
             ∨ (∃ rest, text = String slash rest))
  ∧ astComments = omap (kept commentRegex) toks
  ∧ (∀ tok, commentRegex (token_text tok) = false
            → kept commentRegex tok = None)
  ∧ findComments astComments line
    = join_newline
        (comment_value <$> filter (λ c, near line c = true) astComments).
Proof.
  intros commentRegex astComments. split; [|split; [|split]].
  - intros text. unfold commentRegex, commentRegex_of.
    rewrite orb_true_iff, match_tag_spec, match_slash_spec. done.
  - unfold astComments. by rewrite captured_omap.
  - intros tok Htok. unfold kept. by rewrite Htok.
  - apply findComments_filter. unfold astComments. rewrite captured_omap. simpl.
    apply Forall_forall. intros c (tok & _ & Hk)%list_elem_of_omap.
    by eapply kept_truthy.
Qed.

Lemma C5_comments_kept_and_attached_witness :
  kept (commentRegex_of "L10n:") (CommentToken false " plain" 1) = None.
Proof.
  apply (proj1 (proj2 (proj2
           (C5_comments_kept_and_attached "L10n:" [] 2)))).
  vm_compute; reflexivity.
Defined.

(** ** Claims about the orchestrator *)

Lemma configure_keyword_take (names : list string) (k : nat) :
  (k ≤ length names)%nat →
  foldl (λ (acc : list string) (index : nat),
           match acc !! index with
           | Some name => acc ++ ["n" +:+ name]
           | None => acc
           end) names (seq 0 k)
  = names ++ (String.append "n" <$> take k names).
Proof.
  induction k as [|k IH]; intros Hk.
  - simpl. by rewrite app_nil_r.
  - rewrite seq_S, foldl_app, IH by lia. simpl.
    destruct (lookup_lt_is_Some_2 names k) as [x Hx]; [lia|].
    rewrite lookup_app_l by (apply lookup_lt_is_Some; eauto).
    rewrite Hx, (take_S_r _ _ _ Hx), fmap_app, app_assoc. done.
Qed.

Lemma configure_keyword_spec kw :
  configure_keyword kw =
    match kw with
    | Some names => names ++ (String.append "n" <$> names)
    | None => ["gettext"; "ngettext"]
    end.
Proof.
  destruct kw as [names|]; [|done]. unfold configure_keyword.
  by rewrite configure_keyword_take, firstn_all.
Qed.

Lemma parse_well_formed w sources options contexts original :
  translations (initial_catalog w options) = Contexts contexts →
  contexts !! "" = Some original →
  parse w sources options =
    Run (set_keyword options (configure_keyword (keyword options))) sources
      (t ← extraction w sources options original;
       Ok {| charset := charset (initial_catalog w options);
           headers :=
             if joinExisting options && compareTranslations t original
             then <["pot-creation-date" := clock_update w]>
                    (headers (initial_catalog w options))
             else headers (initial_catalog w options);
           translations := Contexts (<["" := t]> contexts) |}).
Proof.
  intros Hc Ho. unfold parse. rewrite Hc, Ho. done.
Qed.

Lemma initial_catalog_failed w options e :
  po_parse_file w (path_resolve w (catalog_path w options)) = Err e →
  initial_catalog w options = fresh_catalog w options.
Proof.
  intros He. unfold initial_catalog, readPoFile. rewrite He.
  by destruct (joinExisting options).
Qed.

Lemma initial_catalog_loaded w options c :
  joinExisting options = true →
  po_parse_file w (path_resolve w (catalog_path w options)) = Ok c →
  initial_catalog w options = c.
Proof.
  intros Hj Hc. unfold initial_catalog, readPoFile. by rewrite Hj, Hc.
Qed.

(** C6.  With [joinExisting] set: when the catalog file cannot be read
    or parsed, the run goes on with a new default catalog, and an
    error, if there is one, is an error of the extraction, so that the
    run returns a catalog whenever the extraction of the files has no
    error; when a catalog was read whose [translations] is not an
    object, the run throws the error about the PO file at once, before
    it touches the options or reads a source file. *)
Theorem C6_missing_catalog_is_replaced_damaged_catalog_is_fatal
    w sources options :
  joinExisting options = true →
  (∀ e, po_parse_file w (path_resolve w (catalog_path w options)) = Err e →
     initial_catalog w options = fresh_catalog w options
     ∧ (∀ t, extraction w sources options ∅ = Ok t →
          ∃ c, returned (parse w sources options) = Ok c
               ∧ charset c = "utf-8"
               ∧ translations c = Contexts {[ "" := t ]})
     ∧ (∀ e', returned (parse w sources options) = Err e' →
          extraction w sources options ∅ = Err e'))
  ∧ (∀ c, po_parse_file w (path_resolve w (catalog_path w options)) = Ok c →
       translations c = NoTranslations ∨ translations c = NotAnObject →
       parse w sources options = Run options sources (Err InvalidPoFile)).
Proof.
  intros Hj. split.
  - intros e He. pose proof (initial_catalog_failed _ _ _ He) as Hi.
    split; [done|].
    rewrite (parse_well_formed w sources options {[ "" := ∅ ]} ∅);
      [|by rewrite Hi|by rewrite lookup_singleton_eq].
    simpl. split.
    + intros t ->. simpl. eexists. split; [reflexivity|]. simpl.
      rewrite Hi. split; [done|]. by rewrite insert_singleton_eq.
    + intros e'. destruct (extraction w sources options ∅); simpl;
        [discriminate | by intros [= ->]].
  - intros c Hc Hbad. unfold parse.
    rewrite (initial_catalog_loaded _ _ _ Hj Hc).
    by destruct Hbad as [-> | ->].
Qed.

Lemma C6_missing_catalog_is_replaced_damaged_catalog_is_fatal_witness :
  (∃ c, returned (parse Samples.no_catalog [("a.js", "gettext('hello')")]
                    Samples.joining) = Ok c
        ∧ charset c = "utf-8"
        ∧ translations c = Contexts {[ "" := Samples.extracted_hello ]})
  ∧ parse Samples.damaged_catalog [("a.js", "gettext('hello')")]
      Samples.joining
    = Run Samples.joining [("a.js", "gettext('hello')")] (Err InvalidPoFile).
Proof.
  split.
  - destruct (C6_missing_catalog_is_replaced_damaged_catalog_is_fatal
                Samples.no_catalog [("a.js", "gettext('hello')")]
                Samples.joining eq_refl) as [Hmissing _].
    destruct (Hmissing (TypeError "ENOENT: no such file or directory") eq_refl)
      as (_ & Hruns & _).
    apply Hruns. vm_compute. reflexivity.
  - destruct (C6_missing_catalog_is_replaced_damaged_catalog_is_fatal
                Samples.damaged_catalog [("a.js", "gettext('hello')")]
                Samples.joining eq_refl) as [_ Hdamaged].
    apply (Hdamaged (Catalog "utf-8" ∅ NoTranslations) eq_refl).
    left. reflexivity.
Defined.

(** C7.  When the run returns a catalog, its [pot-creation-date] is set
    to the time of the clock exactly when [joinExisting] is on and the
    entries the run ends with are not equal to the entries it started
    from; otherwise the headers are those it started with.  No other
    header is touched in either case. *)
Theorem C7_creation_date_follows_the_change w sources options c :
  returned (parse w sources options) = Ok c →
  ∃ contexts original t,
    translations (initial_catalog w options) = Contexts contexts
    ∧ contexts !! "" = Some original
    ∧ extraction w sources options original = Ok t
    ∧ translations c = Contexts (<["" := t]> contexts)
    ∧ (joinExisting options = true ∧ t ≠ original →
         headers c = <["pot-creation-date" := clock_update w]>
                       (headers (initial_catalog w options)))
    ∧ (¬ (joinExisting options = true ∧ t ≠ original) →
         headers c = headers (initial_catalog w options))
    ∧ (∀ h, h ≠ "pot-creation-date" →
         headers c !! h = headers (initial_catalog w options) !! h).
Proof.
  intros Hc.
  destruct (translations (initial_catalog w options)) as [| |contexts] eqn:Ht;
    try (unfold parse in Hc; rewrite Ht in Hc; discriminate).
  destruct (contexts !! "") as [original|] eqn:Ho;
    [|unfold parse in Hc; rewrite Ht, Ho in Hc; discriminate].
  rewrite (parse_well_formed _ _ _ _ _ Ht Ho) in Hc. simpl in Hc.
  apply bind_Ok in Hc as (t & Ht' & Hc). injection Hc as <-. simpl.
  exists contexts, original, t. repeat split; try done.
  - intros [-> Hne]. unfold compareTranslations.
    by rewrite bool_decide_eq_true_2.
  - intros Hno. destruct (joinExisting options); [|done].
    unfold compareTranslations. rewrite bool_decide_eq_false_2; [done|].
    intros Hne. by apply Hno.
  - intros h Hh.
    destruct (joinExisting options && compareTranslations t original); [|done].
    by rewrite lookup_insert_ne.
Qed.

Lemma C7_creation_date_follows_the_change_witness :
  ∃ c, returned (parse Samples.german_catalog [("a.js", "gettext('hello')")]
                   Samples.joining) = Ok c
       ∧ headers c !! "language"
         = headers (initial_catalog Samples.german_catalog Samples.joining)
             !! "language".
Proof.
  destruct (returned (parse Samples.german_catalog
                        [("a.js", "gettext('hello')")] Samples.joining))
    as [c|e] eqn:Hc; [|vm_compute in Hc; discriminate].
  exists c. split; [reflexivity|].
  destruct (C7_creation_date_follows_the_change _ _ _ _ Hc)
    as (contexts & original & t & _ & _ & _ & _ & _ & _ & Hother).
  apply Hother. discriminate.
Defined.

(** Both cases on the sample catalog: a source file that changes the
    entry of [hello] moves the creation date, no source file leaves it
    as it was. *)
Example creation_date_moves :
  (λ c, headers c !! "pot-creation-date")
    <$> (match returned (parse Samples.german_catalog
                           [("a.js", "gettext('hello')")] Samples.joining) with
         | Ok c => Some c
         | Err _ => None
         end)
  = Some (Some "2026-11-03 10:01+0000").
Proof. vm_compute. reflexivity. Qed.

Example creation_date_stays :
  (λ c, headers c !! "pot-creation-date")
    <$> (match returned (parse Samples.german_catalog [] Samples.joining) with
         | Ok c => Some c
         | Err _ => None
         end)
  = Some (Some "2020-02-02 20:20+0000").
Proof. vm_compute. reflexivity. Qed.

(** The claim C10 fails on any run that gets as far as the keywords: the
    caller's list [["_"]] is [["_"; "n_"]] afterwards, and options
    without a list have one afterwards. *)
Lemma C10_keyword_list_is_written :
  keyword (left_options (parse Samples.no_catalog [] Samples.with_keyword))
    = Some ["_"; "n_"]
  ∧ left_options (parse Samples.no_catalog [] Samples.with_keyword)
    ≠ Samples.with_keyword
  ∧ keyword (left_options (parse Samples.no_catalog [] Samples.joining))
    = Some ["gettext"; "ngettext"]
  ∧ left_options (parse Samples.no_catalog [] Samples.joining)
    ≠ Samples.joining.
Proof.
  repeat split; try (vm_compute; reflexivity); vm_compute; discriminate.
Qed.

(** C10, amended.  A run leaves the sources and every option but
    [keyword] as they were.  It writes [options.keyword], once the
    catalog it starts from has entries for the default context: a list
    the caller gave gets the same names with an "n" in front appended
    to it, and options without a list get [["gettext"; "ngettext"]].
    What the run returns is a function of the sources, the options, the
    catalog file and the clock. *)
Theorem C10_only_the_keyword_list_is_written w sources options :
  let options' := left_options (parse w sources options) in
  left_sources (parse w sources options) = sources
  ∧ joinExisting options' = joinExisting options
  ∧ output options' = output options
  ∧ outputDir options' = outputDir options
  ∧ addComments options' = addComments options
  ∧ sanity options' = sanity options
  ∧ projectIdVersion options' = projectIdVersion options
  ∧ reportBugsTo options' = reportBugsTo options
  ∧ (∀ contexts, translations (initial_catalog w options) = Contexts contexts →
       is_Some (contexts !! "") →
       keyword options'
       = Some match keyword options with
              | Some names => names ++ (String.append "n" <$> names)
              | None => ["gettext"; "ngettext"]
              end).
Proof.
  intros options'. unfold options', parse.
  destruct (translations (initial_catalog w options)) as [| |contexts];
    try by (repeat split; try done; intros ? [=]).
  destruct (contexts !! "") as [original|] eqn:E; simpl.
  - repeat split; try done. intros ? [= <-] _. by rewrite configure_keyword_spec.
  - repeat split; try done. intros ? [= <-] [? Hs]. by rewrite E in Hs.
Qed.

Lemma C10_only_the_keyword_list_is_written_witness :
  keyword (left_options
             (parse Samples.german_catalog [] Samples.joining))
  = Some ["gettext"; "ngettext"].
Proof.
  apply (proj2 (proj2 (proj2 (proj2 (proj2 (proj2 (proj2 (proj2
           (C10_only_the_keyword_list_is_written Samples.german_catalog []
              Samples.joining))))))))
         {[ "" := Samples.german ]}).
  - reflexivity.
  - vm_compute. eauto.
Defined.

(** ** The walk reaches the calls inside markup *)

Lemma nested_in_step root child n :
  walk_edge root child → nested_in child n → nested_in root n.
Proof. intros. by eapply rtc_l. Qed.

Section Reach.
Context {S : Type} (found : node → S → result S) (P : S → Prop).
Variables (callee : node) (args : list node) (line : nat).
Local Abbreviation target := (CallExpression callee args line).
Hypothesis found_keeps : ∀ n st st', found n st = Ok st' → P st → P st'.
Hypothesis found_target : ∀ st st', found target st = Ok st' → P st'.

Lemma simple_keeps n st st' : simple found n st = Ok st' → P st → P st'.
Proof.
  apply (simple_related found (λ st st', P st → P st')); eauto.
Qed.

Lemma each_keeps l st st' :
  each (simple found) l st = Ok st' → P st → P st'.
Proof.
  apply (each_related found (λ st st', P st → P st')); eauto.
  apply Forall_forall. intros n _ ? ?. apply simple_keeps.
Qed.

Lemma each_reaches l :
  Forall (λ x, ∀ st st', simple found x st = Ok st' →
                         nested_in x target → P st') l →
  ∀ st st' x, each (simple found) l st = Ok st' →
              x ∈ l → nested_in x target → P st'.
Proof.
  unfold nested_in.
  induction 1 as [|y l Hy _ IH]; intros st st' x Heach Hx Hnest.
  - by apply elem_of_nil in Hx.
  - simpl in Heach. apply bind_Ok in Heach as (st1 & H1 & H2).
    apply elem_of_cons in Hx as [-> | Hx].
    + eapply each_keeps; eauto.
    + eauto.
Qed.

Lemma simple_reaches root :
  ∀ st st', simple found root st = Ok st' → nested_in root target → P st'.
Proof.
  unfold nested_in.
  induction root using node_nested_ind; intros st st' Hwalk Hnest;
    apply rtc_inv in Hnest as [Hroot | (child & Hedge & Hnest)];
    try discriminate Hroot;
    try (inversion Hedge; fail);
    rewrite simple_unfold in Hwalk;
    apply bind_Ok in Hwalk as (st1 & Hbase & Hfound); simpl in Hbase;
    try (apply bind_Ok in Hbase as (st2 & H1 & H2));
    try (injection Hroot as -> -> ->; by eauto);
    inversion Hedge; subst; simplify_eq;
    try (eapply found_keeps; [eassumption|]);
    try match goal with
        | HF : Forall _ ?l, HE : each _ ?l ?a = Ok ?b, HI : ?x ∈ ?l,
          HN : rtc walk_edge ?x _ |- P ?b =>
            exact (each_reaches l HF a b x HE HI HN)
        end;
    try (eapply each_keeps; [eassumption|]);
    try match goal with
        | HF : Forall _ ?l, HE : each _ ?l ?a = Ok ?b, HI : ?x ∈ ?l,
          HN : rtc walk_edge ?x _ |- P ?b =>
            exact (each_reaches l HF a b x HE HI HN)
        end;
    try (by eauto);
    try (eapply simple_keeps; by eauto).
  destruct c; simplify_eq; [eapply simple_keeps|]; eauto.
Qed.
End Reach.

(** The walk ends without an error when the visitor does and every
    attribute has a value. *)
Section Total.
Context {S : Type} (found : node → S → result S).
Hypothesis found_total : ∀ n st, ∃ st', found n st = Ok st'.

Lemma attributes_valued_step root child :
  walk_edge root child → attributes_valued root → attributes_valued child.
Proof. intros He Hr n Hn. apply Hr. by eapply nested_in_step. Qed.

Lemma each_total l :
  Forall (λ x, attributes_valued x → ∀ st, ∃ st', simple found x st = Ok st') l →
  (∀ x, x ∈ l → attributes_valued x) →
  ∀ st, ∃ st', each (simple found) l st = Ok st'.
Proof.
  induction 1 as [|x l Hx _ IH]; intros Hl st; simpl; [eauto|].
  destruct (Hx (Hl x ltac:(left)) st) as [st1 ->]. simpl.
  apply IH. intros y Hy. apply Hl. by right.
Qed.

Lemma simple_total root :
  attributes_valued root → ∀ st, ∃ st', simple found root st = Ok st'.
Proof.
  induction root
    as [name | v | op l r IHl IHr | o p c IHo IHp
       | callee args line IHc IHargs | attrs kids IHattrs IHkids
       | | v IHv | a IHa | e IHe | | type subnodes IHs]
    using node_nested_ind; intros Hv st; rewrite simple_unfold; simpl.
  - eauto.
  - eauto.
  - destruct (IHl (attributes_valued_step _ _ (edge_left _ _ _) Hv) st)
      as [st1 ->]. simpl.
    destruct (IHr (attributes_valued_step _ _ (edge_right _ _ _) Hv) st1)
      as [st2 ->]. simpl. eauto.
  - destruct (IHo (attributes_valued_step _ _ (edge_object _ _ _) Hv) st)
      as [st1 ->]. simpl. destruct c; simpl; [|eauto].
    destruct (IHp (attributes_valued_step _ _
                     (edge_computed_property _ _) Hv) st1) as [st2 ->].
    simpl. eauto.
  - destruct (IHc (attributes_valued_step _ _ (edge_callee _ _ _) Hv) st)
      as [st1 ->]. simpl.
    destruct (each_total args IHargs
                (λ x Hx, attributes_valued_step _ _
                           (edge_argument _ _ _ _ Hx) Hv) st1)
      as [st2 ->]. simpl. apply found_total.
  - destruct (each_total attrs IHattrs
                (λ x Hx, attributes_valued_step _ _
                           (edge_attribute _ _ _ Hx) Hv) st)
      as [st1 ->]. simpl.
    destruct (each_total kids IHkids
                (λ x Hx, attributes_valued_step _ _
                           (edge_child _ _ _ Hx) Hv) st1)
      as [st2 ->]. simpl. eauto.
  - exfalso. by apply (Hv (JSXAttribute None) (rtc_refl _ _)).
  - destruct v; simpl; eauto.
    destruct (IHv (attributes_valued_step _ _
                     (edge_attribute_value _) Hv) st) as [st1 H1].
    rewrite simple_unfold in H1. simpl in H1. rewrite H1. simpl. eauto.
  - destruct (IHa (attributes_valued_step _ _
                     (edge_spread_argument _) Hv) st) as [st1 ->].
    simpl. eauto.
  - destruct (IHe (attributes_valued_step _ _
                     (edge_container_expression _) Hv) st) as [st1 ->].
    simpl. eauto.
  - eauto.
  - destruct (each_total subnodes IHs
                (λ x Hx, attributes_valued_step _ _
                           (edge_subnode _ _ _ Hx) Hv) st)
      as [st1 ->]. simpl. eauto.
Qed.
End Total.

Lemma maybeExtractMsgids_lenient n names :
  ∃ r, maybeExtractMsgids n names false = Ok r.
Proof.
  unfold maybeExtractMsgids.
  destruct (getFunctionNameAndArguments n) as [[f args]|]; [|eauto].
  destruct (not_allowed names f); [eauto|].
  destruct (args !! 0) as [a1|]; [|eauto].
  destruct (args !! 1) as [a2|].
  - destruct (from_option starts_with_n false f); simpl;
      destruct (isString a1) eqn:H1; simpl; eauto;
      try destruct (isString a2) eqn:H2; simpl;
      rewrite ?extractStr_isString by done; simpl; eauto.
  - destruct (isString a1) eqn:H1; simpl; eauto.
    rewrite extractStr_isString by done. simpl. eauto.
Qed.

(** ** The entries of an extraction *)

Lemma visitor_keeps_entry filename astComments names strict k e n
    (st st' : translations_t) :
  visitor filename astComments names strict n st = Ok st' →
  st !! k = Some e → st' !! k = Some e.
Proof.
  intros [[-> _]|(k' & rest & _ & [Hk' _]%has_property_false & ->)]%visitor_Ok
    Hk; [done|].
  rewrite lookup_insert_ne; [done|]. intros ->. congruence.
Qed.

Lemma visitor_stores filename astComments names strict k rest n
    (st st' : translations_t) :
  maybeExtractMsgids n names strict = Ok (Some (k :: rest)) →
  visitor filename astComments names strict n st = Ok st' →
  st' !! k = Some (candidate filename astComments n k (k :: rest)).
Proof.
  intros Hm [[_ Hno]|(k' & rest' & Hm' & _ & ->)]%visitor_Ok.
  - by destruct (Hno k rest).
  - rewrite Hm in Hm'. injection Hm' as <- <-. by rewrite lookup_insert_eq.
Qed.

(** The entry built at a call below the root is in the result of the
    file as it was built. *)
Lemma parseFile_parsed_stores filename p regex names strict t
    callee args line k rest :
  parseFile_parsed filename p regex names strict = Ok t →
  nested_in (parsed_ast p) (CallExpression callee args line) →
  maybeExtractMsgids (CallExpression callee args line) names strict
  = Ok (Some (k :: rest)) →
  t !! k
  = Some (candidate filename (foldl (onComment regex) [] (parsed_comments p))
            (CallExpression callee args line) k (k :: rest)).
Proof.
  unfold parseFile_parsed. intros Ht Hnest Hm.
  eapply (simple_reaches _
            (λ st : translations_t,
               st !! k
               = Some (candidate filename
                         (foldl (onComment regex) [] (parsed_comments p))
                         (CallExpression callee args line) k (k :: rest)))
            callee args line); [| |exact Ht|exact Hnest].
  - intros n st st'. apply visitor_keeps_entry.
  - intros st st'. by apply visitor_stores.
Qed.

Lemma nested_in_statement body c :
  Samples.statement c ∈ body → nested_in (Samples.program body) c.
Proof.
  intros Hc. eapply rtc_l; [by apply edge_subnode|].
  apply rtc_once, edge_subnode. left.
Qed.

(** The claim C4 fails on [gettext("hello")]: the entry has the empty
    sequence as [msgstr], not a sequence of one empty string. *)
Lemma C4_singular_msgstr_is_empty :
  parseFile_parsed "a.js" Samples.hello_file Samples.default_regex
    Samples.default_names false = Ok Samples.extracted_hello
  ∧ msgstr <$> (Samples.extracted_hello !! "hello") = Some (Some [])
  ∧ msgstr <$> (Samples.extracted_hello !! "hello") ≠ Some (Some [""]).
Proof. repeat split; try (vm_compute; reflexivity). vm_compute. discriminate. Qed.

(** C4, amended.  When a file is extracted, every plural extraction in
    it has produced an entry whose plural field is the second string
    and whose [msgstr] is the sequence of two empty strings, and every
    singular extraction an entry without a plural field whose [msgstr]
    is the empty sequence.  The extractions of a file are those at the
    calls below its root. *)
Theorem C4_entry_of_an_extraction filename p regex names strict t
    callee args line :
  parseFile_parsed filename p regex names strict = Ok t →
  nested_in (parsed_ast p) (CallExpression callee args line) →
  (∀ s1 s2,
     maybeExtractMsgids (CallExpression callee args line) names strict
     = Ok (Some [s1; s2]) →
     ∃ e, t !! s1 = Some e
          ∧ msgid e = s1 ∧ msgid_plural e = Some s2
          ∧ msgstr e = Some [""; ""])
  ∧ (∀ s,
       maybeExtractMsgids (CallExpression callee args line) names strict
       = Ok (Some [s]) →
       ∃ e, t !! s = Some e
            ∧ msgid e = s ∧ msgid_plural e = None ∧ msgstr e = Some []).
Proof.
  intros Ht Hnest. split.
  - intros s1 s2 Hm. eexists. split.
    + by eapply parseFile_parsed_stores.
    + done.
  - intros s Hm. eexists. split.
    + by eapply parseFile_parsed_stores.
    + done.
Qed.

Lemma C4_entry_of_an_extraction_witness :
  (∃ t e, parseFile_parsed "a.js" Samples.items_file Samples.default_regex
            Samples.default_names false = Ok t
          ∧ t !! "1 item" = Some e
          ∧ msgid_plural e = Some "N items" ∧ msgstr e = Some [""; ""])
  ∧ (∃ e, Samples.extracted_hello !! "hello" = Some e
          ∧ msgid_plural e = None ∧ msgstr e = Some []).
Proof.
  split.
  - destruct (parseFile_parsed "a.js" Samples.items_file Samples.default_regex
                Samples.default_names false) as [t|err] eqn:Ht;
      [|vm_compute in Ht; discriminate].
    destruct (proj1 (C4_entry_of_an_extraction "a.js" Samples.items_file
                       Samples.default_regex Samples.default_names false t
                       (Identifier "ngettext")
                       [Samples.str "1 item"; Samples.str "N items";
                        Identifier "n"] 1 Ht
                       (nested_in_statement _ _ ltac:(left)))
                "1 item" "N items" eq_refl) as (e & He & _ & Hp & Hs).
    exists t, e. split; [reflexivity|]. split; [exact He|].
    split; [exact Hp | exact Hs].
  - destruct (proj2 (C4_entry_of_an_extraction "a.js" Samples.hello_file
                       Samples.default_regex Samples.default_names false
                       Samples.extracted_hello
                       (Identifier "gettext") [Samples.str "hello"] 1
                       ltac:(vm_compute; reflexivity)
                       (nested_in_statement _ _ ltac:(left)))
                "hello" eq_refl) as (e & He & _ & Hp & Hs).
    exists e. split; [exact He|]. split; [exact Hp | exact Hs].
Defined.

(** C9.  The claim fails on [<a disabled title={gettext("t")}></a>].
    The call [gettext("t")] lies inside the expression container of an
    attribute, below the root along the edges of the walk, and it is a
    call at which a string is extracted; but the walk stops before it
    reaches the call, at the attribute [disabled]: the rule for
    attributes reads the type of its value, which is [null]. *)
Theorem C9_attribute_without_a_value_stops_the_walk :
  nested_in (parsed_ast Samples.disabled_file)
    (Samples.call "gettext" [Samples.str "t"] 1)
  ∧ maybeExtractMsgids (Samples.call "gettext" [Samples.str "t"] 1)
      Samples.default_names false = Ok (Some ["t"])
  ∧ parseFile_parsed "a.js" Samples.disabled_file Samples.default_regex
      Samples.default_names false
    = Err (TypeError "Cannot read property 'type' of null").
Proof.
  split; [|split; reflexivity].
  eapply rtc_l; [apply edge_subnode; left|].
  eapply rtc_l; [apply edge_subnode; left|].
  eapply rtc_l; [apply edge_attribute; right; left|].
  eapply rtc_l; [apply edge_attribute_value|].
  apply rtc_once, edge_container_expression.
Qed.

(** [<a title={gettext("x")}>{gettext("x")}</a>]: the call in the
    children is the second call site of its msgid, where the visitor
    calls a function the helper does not export. *)
Example markup_with_a_repeated_msgid_throws :
  parseFile_parsed "a.js" Samples.echo_file Samples.default_regex
    Samples.default_names false
  = Err not_a_function.
Proof. reflexivity. Qed.


(** ** Merging the same extraction twice *)

Lemma split_newline_nonempty s : split_newline s ≠ [].
Proof.
  destruct s as [|c s]; simpl; [done|].
  destruct (Ascii.eqb c newline); [done|]. by destruct (split_newline s).
Qed.

Lemma join_split s : join_newline (split_newline s) = s.
Proof.
  induction s as [|c s IH]; simpl; [done|].
  destruct (Ascii.eqb_spec c newline) as [->|Hc].
  - pose proof (split_newline_nonempty s) as Hne.
    destruct (split_newline s) as [|l ls] eqn:E; [done|].
    change (join_newline ("" :: l :: ls))
      with ("" +:+ String newline (join_newline (l :: ls))).
    by rewrite IH.
  - pose proof (split_newline_nonempty s) as Hne.
    destruct (split_newline s) as [|l ls] eqn:E; [done|].
    destruct ls as [|l' ls].
    + simpl in *. by rewrite IH.
    + change (join_newline (String c l :: l' :: ls))
        with (String c l +:+ String newline (join_newline (l' :: ls))).
      change (join_newline (l :: l' :: ls))
        with (l +:+ String newline (join_newline (l' :: ls))) in IH.
      by rewrite append_String, IH.
Qed.

Lemma indexOf_app_l x l1 l2 i :
  indexOf x l1 = Some i → indexOf x (l1 ++ l2) = Some i.
Proof.
  revert i. induction l1 as [|y l1 IH]; intros i; simpl; [done|].
  destruct (String.eqb y x); [done|].
  destruct (indexOf x l1) as [j|]; [|done]. by rewrite (IH j).
Qed.

Lemma indexOf_NoDup (l : list string) j x :
  NoDup l → l !! j = Some x → indexOf x l = Some j.
Proof.
  intros Hl. revert j. induction Hl as [|y l Hy _ IH]; intros j Hj; [done|].
  simpl. destruct j as [|j]; simpl in Hj.
  - injection Hj as ->. by rewrite String.eqb_refl.
  - destruct (String.eqb_spec y x) as [->|_].
    + exfalso. apply Hy. by eapply list_elem_of_lookup_2.
    + by rewrite (IH j Hj).
Qed.

Lemma filter_from_ext f g arr i l :
  (∀ j x, l !! j = Some x → f x (i + j) arr = g x (i + j) arr) →
  filter_from f arr i l = filter_from g arr i l.
Proof.
  revert i. induction l as [|x l IH]; intros i H; simpl; [done|].
  assert (filter_from f arr (S i) l = filter_from g arr (S i) l) as ->.
  { apply IH. intros j y Hj. replace (S i + j) with (i + S j) by lia.
    by apply H. }
  specialize (H 0 x eq_refl). rewrite Nat.add_0_r in H. by rewrite H.
Qed.

Lemma filter_from_below n arr i (l : list string) :
  filter_from (λ _ j _, bool_decide (j < n)) arr i l = take (n - i) l.
Proof.
  revert i. induction l as [|x l IH]; intros i; simpl.
  - by rewrite take_nil.
  - case_bool_decide as Hi.
    + rewrite IH. replace (n - i) with (S (n - S i)) by lia. done.
    + rewrite IH. replace (n - i) with 0 by lia.
      replace (n - S i) with 0 by lia. by rewrite take_0.
Qed.

Lemma dedup_twice (l : list string) :
  NoDup l → "" ∉ l → Array_filter deduplicateFilter (l ++ l) = l.
Proof.
  intros Hnd Hne. unfold Array_filter.
  rewrite (filter_from_ext _ (λ _ j _, bool_decide (j < length l))).
  - rewrite filter_from_below, Nat.sub_0_r. by rewrite take_app_length.
  - intros j x Hj. simpl. unfold deduplicateFilter.
    assert (x ∈ l) as Hx.
    { apply list_elem_of_lookup_2 in Hj. by apply elem_of_app in Hj as [?|?]. }
    assert (truthy x = true) as ->.
    { destruct x; [done | done]. }
    simpl. destruct (decide (j < length l)) as [Hlt|Hge].
    + rewrite lookup_app_l in Hj by done.
      rewrite (indexOf_app_l _ _ _ _ (indexOf_NoDup _ _ _ Hnd Hj)).
      by rewrite !bool_decide_eq_true_2.
    + rewrite lookup_app_r in Hj by lia.
      rewrite (indexOf_app_l _ _ _ _ (indexOf_NoDup _ _ _ Hnd Hj)).
      apply lookup_lt_Some in Hj.
      rewrite !bool_decide_eq_false_2; [done | lia | intros [=]; lia].
Qed.

Lemma mergeComment_same s :
  clean_comment s → mergeComment (Some s) (Some s) = Some s.
Proof.
  intros [-> | [Hnd Hne]]; [done|].
  unfold mergeComment. by rewrite dedup_twice, join_split.
Qed.

Lemma mergeTranslation_same e :
  extractor_entry e → clean_entry e → mergeTranslation e e = e.
Proof.
  destruct e as [id ctx pl ms cm].
  intros (Hctx & Hms & r & x & Hcm) Hclean. simpl in *. subst ctx cm.
  destruct (Hclean _ eq_refl) as [Hr Hx]. simpl in *.
  unfold mergeTranslation, mergeComments. cbn -[mergeComment].
  rewrite (mergeComment_same r), (mergeComment_same x) by eauto.
  f_equal; unfold assign_field.
  - by destruct pl.
  - by destruct ms.
Qed.

Lemma mergeTranslations_empty (E : translations_t) : mergeTranslations ∅ E = E.
Proof.
  apply map_eq. intros k. by rewrite mergeTranslations_lookup, lookup_empty.
Qed.

Lemma mergeTranslations_same (E : translations_t) :
  map_Forall (λ _, extractor_entry) E → map_Forall (λ _, clean_entry) E →
  mergeTranslations E E = E.
Proof.
  intros Hshape Hclean. apply map_eq. intros k.
  rewrite mergeTranslations_lookup. destruct (E !! k) as [e|] eqn:He; [|done].
  simpl. f_equal. apply mergeTranslation_same; [by eapply Hshape | by eapply Hclean].
Qed.

(** The claim C2 fails on a call with the same comment on its line and
    on the line before: one extraction keeps the comment twice, the
    second merge keeps it once. *)
Lemma C2_repeated_comment_is_merged_away :
  ∃ E, parseFile_parsed "a.js" Samples.repeated_comment_file
         Samples.default_regex Samples.default_names false = Ok E
       ∧ attached_text (mergeTranslations ∅ E) "a" = Some "L10n: hi
L10n: hi"
       ∧ attached_text (mergeTranslations (mergeTranslations ∅ E) E) "a"
         = Some "L10n: hi"
       ∧ mergeTranslations (mergeTranslations ∅ E) E ≠ mergeTranslations ∅ E.
Proof.
  eexists. split; [vm_compute; reflexivity|].
  split; [vm_compute; reflexivity|]. split; [vm_compute; reflexivity|].
  intros H. apply (f_equal (λ m, attached_text m "a")) in H.
  vm_compute in H. discriminate.
Qed.

(** C2, amended.  Merging the extraction of a file twice into a new
    catalog gives the msgids of merging it once, and the same entries
    when, in every entry, the lines of the reference and the lines of
    the extracted comment are all different and not empty (the second
    merge drops a repeated or empty line otherwise). *)
Theorem C2_second_merge_of_an_extraction
    filename p regex names strict (E : translations_t) :
  parseFile_parsed filename p regex names strict = Ok E →
  dom (mergeTranslations (mergeTranslations ∅ E) E)
    = dom (mergeTranslations ∅ E)
  ∧ (map_Forall (λ _, clean_entry) E →
     mergeTranslations (mergeTranslations ∅ E) E = mergeTranslations ∅ E).
Proof.
  intros HE. rewrite mergeTranslations_empty. split.
  - by rewrite mergeTranslations_dom, union_idemp_L.
  - intros Hclean. apply mergeTranslations_same; [|done].
    by eapply parseFile_parsed_entries.
Qed.

Lemma C2_second_merge_of_an_extraction_witness :
  mergeTranslations (mergeTranslations ∅ Samples.extracted_hello)
    Samples.extracted_hello
  = mergeTranslations ∅ Samples.extracted_hello.
Proof.
  apply (proj2 (C2_second_merge_of_an_extraction
                  "a.js" Samples.hello_file Samples.default_regex
                  Samples.default_names false Samples.extracted_hello
                  ltac:(vm_compute; reflexivity))).
  intros k e He.
  destruct (decide (k = "hello")) as [->|Hk].
  - vm_compute in He. injection He as <-.
    intros c [= <-]. split; intros s [= <-].
    + right. change (split_newline "a.js:1") with ["a.js:1"].
      split; [apply NoDup_singleton|].
      by intros [=]%list_elem_of_singleton.
    + by left.
  - unfold Samples.extracted_hello in He.
    by rewrite lookup_singleton_ne in He.
Defined.

(** [gettext("hello")] on line 1 and again on line 3: at the second
    call site the visitor calls [poHelper.mergeTranslation], which the
    helper does not export. *)
Example second_call_site_throws :
  parseFile_parsed "a.js" Samples.twice_file Samples.default_regex
    Samples.default_names false
  = Err not_a_function.
Proof. reflexivity. Qed.

(** * Further properties of the code *)

(** ** Merged comments *)

Lemma truthy_true s : truthy s = true ↔ s ≠ "".
Proof. destruct s; simpl; split; done. Qed.

Lemma indexOf_fresh x pre l :
  x ∉ pre → indexOf x (pre ++ x :: l) = Some (length pre).
Proof.
  induction pre as [|y pre IH]; intros Hx; simpl.
  - by rewrite String.eqb_refl.
  - apply not_elem_of_cons in Hx as [Hne Hx].
    destruct (String.eqb_spec y x) as [->|_]; [done|]. by rewrite IH.
Qed.

Lemma indexOf_seen x pre l :
  x ∈ pre → ∃ j, j < length pre ∧ indexOf x (pre ++ l) = Some j.
Proof.
  induction pre as [|y pre IH]; intros Hx; [by apply elem_of_nil in Hx|].
  simpl. destruct (String.eqb_spec y x) as [->|Hne].
  - exists 0. split; [lia | done].
  - apply elem_of_cons in Hx as [->|Hx]; [done|].
    destruct (IH Hx) as (j & Hj & ->). exists (S j). split; [lia | done].
Qed.

Lemma filter_from_first_lines pre l :
  filter_from deduplicateFilter (pre ++ l) (length pre) l = first_lines pre l.
Proof.
  revert pre. induction l as [|x l IH]; intros pre; simpl; [done|].
  assert (deduplicateFilter x (length pre) (pre ++ x :: l)
          = truthy x && bool_decide (x ∉ pre)) as ->.
  { unfold deduplicateFilter. f_equal.
    destruct (decide (x ∈ pre)) as [Hin|Hout].
    - destruct (indexOf_seen x pre (x :: l) Hin) as (j & Hj & ->).
      rewrite bool_decide_eq_false_2 by (intros [=]; lia).
      by rewrite bool_decide_eq_false_2 by auto.
    - rewrite (indexOf_fresh _ _ _ Hout).
      by rewrite !bool_decide_eq_true_2. }
  specialize (IH (pre ++ [x])).
  rewrite <- app_assoc, length_app in IH. simpl in IH.
  rewrite Nat.add_1_r in IH. by rewrite IH.
Qed.

Lemma Array_filter_first_lines arr :
  Array_filter deduplicateFilter arr = first_lines [] arr.
Proof. apply (filter_from_first_lines [] arr). Qed.

Lemma first_lines_app seen a b :
  first_lines seen (a ++ b) = first_lines seen a ++ first_lines (seen ++ a) b.
Proof.
  revert seen. induction a as [|x a IH]; intros seen; simpl.
  - by rewrite app_nil_r.
  - rewrite IH, <- app_assoc. simpl.
    by destruct (truthy x && bool_decide (x ∉ seen)).
Qed.

Lemma first_lines_elem seen l y :
  y ∈ first_lines seen l ↔ y ∈ l ∧ y ≠ "" ∧ y ∉ seen.
Proof.
  revert seen. induction l as [|x l IH]; intros seen; simpl.
  - split; [by intros ?%elem_of_nil | by intros [?%elem_of_nil _]].
  - destruct (truthy x) eqn:Hx; simpl.
    + apply truthy_true in Hx. case_bool_decide as Hs.
      * rewrite !elem_of_cons, IH, not_elem_of_app, list_elem_of_singleton.
        split; [intros [->|(? & ? & ? & ?)]; auto|].
        intros ([->|?] & ? & ?); [auto|].
        destruct (decide (y = x)) as [->|]; auto.
      * rewrite elem_of_cons, IH, not_elem_of_app, list_elem_of_singleton.
        split; [intros (? & ? & ? & ?); auto|].
        intros ([->|?] & ? & ?); [done|].
        split; [done|]. split; [done|]. split; [done|]. by intros ->.
    + assert (x = "") as -> by (by destruct x).
      rewrite elem_of_cons, IH, not_elem_of_app, list_elem_of_singleton.
      split; [intros (? & ? & ? & ?); auto|].
      intros ([->|?] & ? & ?); [done|]. auto.
Qed.

Lemma first_lines_NoDup seen l : NoDup (first_lines seen l).
Proof.
  revert seen. induction l as [|x l IH]; intros seen; simpl; [constructor|].
  destruct (truthy x && bool_decide (x ∉ seen)); [|apply IH].
  constructor; [|apply IH].
  rewrite first_lines_elem, not_elem_of_app, list_elem_of_singleton.
  intros (_ & _ & _ & ?). done.
Qed.

Lemma first_lines_sublist seen l : sublist (first_lines seen l) l.
Proof.
  revert seen. induction l as [|x l IH]; intros seen; simpl; [constructor|].
  destruct (truthy x && bool_decide (x ∉ seen)).
  - by apply sublist_skip.
  - by apply sublist_cons.
Qed.

Lemma first_lines_covered seen l :
  (∀ y, y ∈ l → y = "" ∨ y ∈ seen) → first_lines seen l = [].
Proof.
  intros H. destruct (first_lines seen l) as [|y r] eqn:E; [done|].
  assert (y ∈ first_lines seen l) as Hy by (rewrite E; left).
  apply first_lines_elem in Hy as (Hin & Hne & Hout).
  by destruct (H y Hin).
Qed.

Lemma first_lines_id seen l :
  NoDup l → "" ∉ l → (∀ y, y ∈ l → y ∉ seen) → first_lines seen l = l.
Proof.
  intros Hnd. revert seen. induction Hnd as [|x l Hx _ IH]; intros seen He Hs;
    simpl; [done|].
  apply not_elem_of_cons in He as [Hne He].
  assert (truthy x = true) as -> by (apply truthy_true; congruence).
  rewrite bool_decide_eq_true_2 by (apply Hs; left). simpl. f_equal.
  apply IH; [done|]. intros y Hy.
  rewrite not_elem_of_app, list_elem_of_singleton. split.
  - apply Hs. by right.
  - by intros ->.
Qed.

Lemma indexOf_elem x (l : list string) :
  x ∈ l → ∃ a, indexOf x l = Some a.
Proof.
  intros Hx. destruct (indexOf_seen x l [] Hx) as (a & _ & Ha).
  rewrite app_nil_r in Ha. eauto.
Qed.

Lemma indexOf_later h x (l : list string) a :
  h ≠ x → indexOf x l = Some a → indexOf x (h :: l) = Some (S a).
Proof.
  intros Hne Ha. simpl. destruct (String.eqb_spec h x); [done|].
  by rewrite Ha.
Qed.

(** The items of [first_lines] stand in the order of their first
    places in the list. *)
Lemma first_lines_order seen l i j x y :
  first_lines seen l !! i = Some x → first_lines seen l !! j = Some y →
  i < j →
  ∃ a b, indexOf x l = Some a ∧ indexOf y l = Some b ∧ a < b.
Proof.
  revert seen i j. induction l as [|h l IH]; intros seen i j Hi Hj Hlt;
    [done|].
  assert (∀ m z, first_lines (seen ++ [h]) l !! m = Some z →
                 h ≠ z ∧ z ∈ l) as Hlater.
  { intros m z Hz. apply list_elem_of_lookup_2, first_lines_elem in Hz
      as (Hin & _ & Hout).
    apply not_elem_of_app in Hout as [_ Hout].
    split; [|done]. intros ->. apply Hout. left. }
  assert (∀ i' j', first_lines (seen ++ [h]) l !! i' = Some x →
                   first_lines (seen ++ [h]) l !! j' = Some y → i' < j' →
                   ∃ a b, indexOf x (h :: l) = Some a
                          ∧ indexOf y (h :: l) = Some b ∧ a < b) as Htail.
  { intros i' j' Hi' Hj' Hlt'.
    destruct (IH _ _ _ Hi' Hj' Hlt') as (a & b & Ha & Hb & Hab).
    destruct (Hlater _ _ Hi') as [Hx _], (Hlater _ _ Hj') as [Hy _].
    exists (S a), (S b).
    rewrite (indexOf_later _ _ _ _ Hx Ha), (indexOf_later _ _ _ _ Hy Hb).
    split; [done|]. split; [done | lia]. }
  simpl in Hi, Hj.
  destruct (truthy h && bool_decide (h ∉ seen)); [|by eapply Htail].
  destruct j as [|j]; [lia|]. simpl in Hj. destruct i as [|i]; simpl in Hi.
  - injection Hi as ->. destruct (Hlater _ _ Hj) as [Hy Hin].
    destruct (indexOf_elem _ _ Hin) as [b Hb].
    exists 0, (S b). rewrite (indexOf_later _ _ _ _ Hy Hb). simpl.
    rewrite String.eqb_refl. split; [done|]. split; [done | lia].
  - apply (Htail i j); [done | done | lia].
Qed.

(** X1.  The merge of two comment texts is made of lines that are all
    different and none of them empty: exactly the non-empty lines of the
    old and of the new text, each once, in the order in which they first
    occur, the old text first. *)
Theorem merged_comment_lines o n :
  ∃ lines,
    mergeComment (Some o) (Some n) = Some (join_newline lines)
    ∧ NoDup lines
    ∧ (∀ x, x ∈ lines
            ↔ (x ∈ split_newline o ∨ x ∈ split_newline n) ∧ x ≠ "")
    ∧ sublist lines (split_newline o ++ split_newline n)
    ∧ (∀ i j x y,
         lines !! i = Some x → lines !! j = Some y → i < j →
         ∃ a b, indexOf x (split_newline o ++ split_newline n) = Some a
                ∧ indexOf y (split_newline o ++ split_newline n) = Some b
                ∧ a < b).
Proof.
  exists (first_lines [] (split_newline o ++ split_newline n)).
  split; [|split; [|split; [|split]]].
  - unfold mergeComment. by rewrite Array_filter_first_lines.
  - apply first_lines_NoDup.
  - intros x. rewrite first_lines_elem, elem_of_app.
    split; [intros (? & ? & _); auto|].
    intros [? ?]. split; [done|]. split; [done|]. apply not_elem_of_nil.
  - apply first_lines_sublist.
  - intros i j x y. apply first_lines_order.
Qed.

Lemma split_line x :
  has_newline x = false → split_newline x = [x].
Proof.
  induction x as [|c x IH]; simpl; [done|].
  destruct (Ascii.eqb c newline); simpl; [done|].
  intros Hx. by rewrite (IH Hx).
Qed.

Lemma split_append x s :
  has_newline x = false →
  split_newline (x +:+ String newline s) = x :: split_newline s.
Proof.
  induction x as [|c x IH]; intros Hx.
  - reflexivity.
  - simpl in Hx. rewrite append_String. simpl.
    destruct (Ascii.eqb c newline); [done|]. simpl in Hx.
    by rewrite (IH Hx).
Qed.

Lemma split_newline_free s :
  Forall (λ x, has_newline x = false) (split_newline s).
Proof.
  induction s as [|c s IH]; simpl; [by repeat constructor|].
  destruct (Ascii.eqb c newline) eqn:Hc.
  - by constructor.
  - destruct (split_newline s) as [|l ls].
    { constructor; [simpl; by rewrite Hc | constructor]. }
    apply Forall_cons in IH as [Hl Hls]. constructor; [|done].
    simpl. by rewrite Hc.
Qed.

Lemma split_join l :
  l ≠ [] → Forall (λ x, has_newline x = false) l →
  split_newline (join_newline l) = l.
Proof.
  intros Hne Hall. induction Hall as [|x l Hx Hl IH]; [done|].
  destruct l as [|y l].
  - simpl. by apply split_line.
  - change (join_newline (x :: y :: l))
      with (x +:+ String newline (join_newline (y :: l))).
    rewrite split_append by done. f_equal. by apply IH.
Qed.

Lemma first_lines_newline_free seen l :
  Forall (λ x, has_newline x = false) l →
  Forall (λ x, has_newline x = false) (first_lines seen l).
Proof.
  intros Hall. apply Forall_forall. intros x Hx.
  apply first_lines_elem in Hx as (Hx & _).
  by eapply Forall_forall in Hall.
Qed.

(** The lines of a merged comment, read back. *)
Lemma merged_comment_read_back a b :
  let D := first_lines [] (split_newline a ++ split_newline b) in
  first_lines [] (split_newline (join_newline D) ++ split_newline b) = D.
Proof.
  intros D.
  assert (∀ y, y ∈ split_newline b → y = "" ∨ y ∈ D) as Hcov.
  { intros y Hy. destruct (decide (y = "")) as [|Hne]; [by left|]. right.
    apply first_lines_elem. split; [apply elem_of_app; by right|].
    split; [done | apply not_elem_of_nil]. }
  destruct D as [|d D'] eqn:HD.
  - simpl. apply first_lines_covered. intros y Hy.
    destruct (Hcov y Hy) as [?|?%elem_of_nil]; [by left | done].
  - rewrite <- HD in *. rewrite split_join.
    + rewrite first_lines_app, app_nil_l.
      rewrite (first_lines_covered D) by done. rewrite app_nil_r.
      apply first_lines_id.
      * apply first_lines_NoDup.
      * intros H%first_lines_elem. by destruct H as (_ & ? & _).
      * intros y _. apply not_elem_of_nil.
    + by rewrite HD.
    + apply first_lines_newline_free, Forall_app.
      split; apply split_newline_free.
Qed.

(** X2.  Once a comment text has been merged into another, merging it
    into the result again changes nothing. *)
Theorem merging_the_same_comment_again_changes_nothing a b :
  mergeComment (mergeComment (Some a) (Some b)) (Some b)
  = mergeComment (Some a) (Some b).
Proof.
  unfold mergeComment. rewrite !Array_filter_first_lines.
  by rewrite merged_comment_read_back.
Qed.

Lemma assign_field_absorb {A} (a b : option A) :
  assign_field (assign_field a b) b = assign_field a b.
Proof. by destruct b. Qed.

Lemma extractor_entry_has_both n : extractor_entry n → has_both_comments n.
Proof. intros (_ & _ & r & x & Hc). eexists _, r, x. eauto. Qed.

Lemma mergeTranslation_has_both e n :
  extractor_entry n → has_both_comments (mergeTranslation e n).
Proof.
  intros (_ & _ & r & x & Hc). unfold has_both_comments, mergeTranslation.
  cbn -[mergeComment]. rewrite Hc.
  destruct (comments e) as [c|]; cbn -[mergeComment].
  - destruct (reference c), (extracted c); eexists _, _, _;
      (split; [reflexivity|]); split; reflexivity.
  - eexists _, r, x. eauto.
Qed.

Lemma mergeTranslation_absorb e n :
  has_both_comments e → extractor_entry n →
  mergeTranslation (mergeTranslation e n) n = mergeTranslation e n.
Proof.
  intros (c & r & x & Hc & Hr & Hx) (_ & _ & rn & xn & Hn).
  unfold mergeTranslation, assign_translation. cbn -[mergeComment].
  rewrite Hc, Hn. cbn -[mergeComment]. rewrite Hr, Hx.
  unfold mergeComment. rewrite !Array_filter_first_lines.
  rewrite !merged_comment_read_back.
  by rewrite !assign_field_absorb.
Qed.

(** X3.  Merging the extraction of a file into a catalog that already
    has, for every extracted msgid, an entry with a reference and an
    extracted comment gives the same catalog as merging it twice; and
    whatever the catalog was, the third merge of the same extraction
    gives what the second gave. *)
Theorem a_merged_extraction_is_absorbed filename p regex names strict
    (new T : translations_t) :
  parseFile_parsed filename p regex names strict = Ok new →
  ((∀ k, is_Some (new !! k) → ∃ e, T !! k = Some e ∧ has_both_comments e) →
   mergeTranslations (mergeTranslations T new) new = mergeTranslations T new)
  ∧ mergeTranslations (mergeTranslations (mergeTranslations T new) new) new
    = mergeTranslations (mergeTranslations T new) new.
Proof.
  intros Hnew.
  assert (∀ U : translations_t,
            (∀ k, is_Some (new !! k) →
                  ∃ e, U !! k = Some e ∧ has_both_comments e) →
            mergeTranslations (mergeTranslations U new) new
            = mergeTranslations U new) as Habsorb.
  { intros U HU. apply map_eq. intros k.
    rewrite !mergeTranslations_lookup.
    destruct (new !! k) as [n|] eqn:Hn; [|by destruct (U !! k)].
    pose proof (parseFile_parsed_entries _ _ _ _ _ _ Hnew k n Hn) as Hentry.
    destruct (HU k ltac:(by rewrite Hn)) as (e & -> & He). simpl.
    f_equal. by apply mergeTranslation_absorb. }
  split; [apply Habsorb|].
  apply Habsorb. intros k [n Hn].
  pose proof (parseFile_parsed_entries _ _ _ _ _ _ Hnew k n Hn) as Hentry.
  rewrite mergeTranslations_lookup, Hn.
  destruct (T !! k); simpl; eexists; (split; [reflexivity|]).
  - by apply mergeTranslation_has_both.
  - by apply extractor_entry_has_both.
Qed.

Lemma a_merged_extraction_is_absorbed_witness :
  mergeTranslations
    (mergeTranslations (mergeTranslations ∅ MoreSamples.extracted_a)
       MoreSamples.extracted_a)
    MoreSamples.extracted_a
  = mergeTranslations (mergeTranslations ∅ MoreSamples.extracted_a)
      MoreSamples.extracted_a.
Proof.
  apply (proj2 (a_merged_extraction_is_absorbed "a.js"
                  Samples.repeated_comment_file Samples.default_regex
                  Samples.default_names false MoreSamples.extracted_a ∅
                  ltac:(vm_compute; reflexivity))).
Defined.

(** ** Catalogs keyed by msgid *)

Lemma visitor_keyed filename astComments names strict n
    (st st' : translations_t) :
  visitor filename astComments names strict n st = Ok st' →
  keyed_by_msgid st → keyed_by_msgid st'.
Proof.
  intros [[-> _]|(k & rest & _ & _ & ->)]%visitor_Ok Hall; [done|].
  by apply map_Forall_insert_2.
Qed.

(** X4.  Every entry the extractor returns for a file sits under the key
    that is its own msgid, and merging two mappings of which this is
    true gives a mapping of which it is true. *)
Theorem entries_are_keyed_by_their_msgid :
  (∀ filename p regex names strict t,
     parseFile_parsed filename p regex names strict = Ok t → keyed_by_msgid t)
  ∧ (∀ old new,
       keyed_by_msgid old → keyed_by_msgid new →
       keyed_by_msgid (mergeTranslations old new)).
Proof.
  split.
  - intros filename p regex names strict t H. unfold parseFile_parsed in H.
    refine (simple_related _ (λ st st' : translations_t,
              keyed_by_msgid st → keyed_by_msgid st') _ _ _ _ _ _ H _).
    + auto.
    + auto.
    + intros n st st'. apply visitor_keyed.
    + apply map_Forall_empty.
  - intros old new Hold Hnew k e. rewrite mergeTranslations_lookup.
    destruct (old !! k) as [o|] eqn:Ho, (new !! k) as [n|] eqn:Hn; simpl;
      intros [= <-]; eauto.
    simpl. by eapply Hnew.
Qed.

Lemma entries_are_keyed_by_their_msgid_witness :
  keyed_by_msgid Samples.extracted_hello
  ∧ keyed_by_msgid
      (mergeTranslations Samples.german Samples.extracted_hello).
Proof.
  destruct entries_are_keyed_by_their_msgid as [Hfile Hmerge].
  assert (keyed_by_msgid Samples.extracted_hello) as Hhello.
  { apply (Hfile "a.js" Samples.hello_file Samples.default_regex
             Samples.default_names false).
    vm_compute; reflexivity. }
  split; [exact Hhello|]. apply Hmerge; [|exact Hhello].
  unfold Samples.german.
  repeat (apply map_Forall_insert_2; [reflexivity|]). apply map_Forall_empty.
Defined.

(** X5.  Merging an empty mapping into a catalog, and merging a mapping
    into an empty catalog, give the catalog and the mapping back. *)
Theorem merge_identities (t : translations_t) :
  mergeTranslations t ∅ = t ∧ mergeTranslations ∅ t = t.
Proof.
  split; apply map_eq; intros k; rewrite mergeTranslations_lookup, lookup_empty.
  - by destruct (t !! k).
  - done.
Qed.

(** X6.  When a msgid of the catalog is extracted again, the merged
    entry has comments, and these carry no translator comment, no flag
    and no previous msgid any more, whatever the catalog entry had. *)
Theorem reextraction_drops_translator_notes (old : translations_t)
    filename p regex names strict (new : translations_t) k o n :
  parseFile_parsed filename p regex names strict = Ok new →
  old !! k = Some o → new !! k = Some n →
  ∃ m c, mergeTranslations old new !! k = Some m
         ∧ comments m = Some c
         ∧ translator c = None ∧ flag c = None ∧ previous c = None.
Proof.
  intros Hnew Ho Hn.
  destruct (parseFile_parsed_entries _ _ _ _ _ _ Hnew k n Hn)
    as (_ & _ & r & e & Hc).
  exists (mergeTranslation o n).
  rewrite mergeTranslations_lookup, Ho, Hn. simpl. rewrite Hc.
  destruct (comments o) as [oc|]; simpl; eexists; (split; [reflexivity|]);
    (split; [reflexivity|]); done.
Qed.

Lemma reextraction_drops_translator_notes_witness :
  (comments Samples.hallo ≫= translator) = Some "checked"
  ∧ ∃ m c, mergeTranslations Samples.german Samples.extracted_hello !! "hello"
             = Some m
           ∧ comments m = Some c
           ∧ translator c = None ∧ flag c = None ∧ previous c = None.
Proof.
  split; [reflexivity|].
  apply (reextraction_drops_translator_notes Samples.german "a.js"
           Samples.hello_file Samples.default_regex Samples.default_names
           false Samples.extracted_hello "hello" Samples.hallo
           {| msgid := "hello"; msgctxt := None; msgid_plural := None;
              msgstr := Some [];
              comments :=
                Some (Comments None (Some "a.js:1") (Some "") None None) |});
    vm_compute; reflexivity.
Defined.

Lemma each_source_app w regex names strict a b (st : translations_t) :
  each_source w regex names strict (a ++ b) st
  = each_source w regex names strict a st
      ≫= each_source w regex names strict b.
Proof.
  revert st. induction a as [|[f s] a IH]; intros st; simpl; [done|].
  destruct (parseFile (parser_parse w) f s regex names strict); simpl; [|done].
  apply IH.
Qed.

(** X7.  Reading the files [a] and then the files [b] is reading [a],
    then [b] from where [a] ended; an error in a file of [a] is the
    error of the whole, and no file of [b] is read. *)
Theorem files_are_processed_in_sequence w options a b start :
  extraction w (a ++ b) options start
  = extraction w a options start ≫= extraction w b options
  ∧ (∀ e, extraction w a options start = Err e →
          extraction w (a ++ b) options start = Err e).
Proof.
  unfold extraction. split.
  - apply each_source_app.
  - intros e He. by rewrite each_source_app, He.
Qed.

Lemma files_are_processed_in_sequence_witness :
  extraction Samples.no_catalog
    ([("bad.js", "gettext(")] ++ MoreSamples.one_source)
    Samples.joining ∅
  = Err (SyntaxError "Unexpected token").
Proof.
  apply (proj2 (files_are_processed_in_sequence Samples.no_catalog
                  Samples.joining [("bad.js", "gettext(")]
                  MoreSamples.one_source ∅)).
  reflexivity.
Defined.

(** ** A run as a whole *)

Lemma extraction_cons w options filename source rest start :
  extraction w ((filename, source) :: rest) options start
  = (E ← parseFile (parser_parse w) filename source (commentRegex_for options)
           (configure_keyword (keyword options)) (sanity options);
     extraction w rest options (mergeTranslations start E)).
Proof. reflexivity. Qed.

Lemma extraction_dom w options sources (start t : translations_t) :
  extraction w sources options start = Ok t → dom start ⊆ dom t.
Proof.
  revert start. induction sources as [|[f s] rest IH]; intros start.
  - by intros [= ->].
  - rewrite extraction_cons. intros (E & _ & Hrest)%bind_Ok.
    apply IH in Hrest. rewrite mergeTranslations_dom in Hrest. set_solver.
Qed.

Lemma extraction_stale w options sources (start t : translations_t) k o :
  extraction w sources options start = Ok t →
  start !! k = Some o → not_extracted w options sources k →
  t !! k = Some o.
Proof.
  revert start. induction sources as [|[f s] rest IH]; intros start Ht Hk Hno.
  - by injection Ht as <-.
  - rewrite extraction_cons in Ht. apply bind_Ok in Ht as (E & HE & Hrest).
    apply (IH _ Hrest).
    + rewrite mergeTranslations_lookup, Hk.
      by rewrite (Hno f s E ltac:(left) HE).
    + intros f' s' E' Hin. apply Hno. by right.
Qed.

(** X8.  A run that returns a catalog leaves the charset and the entries
    of every other context as they were, drops no msgid of the default
    context, and returns unchanged every entry whose msgid no source
    file has. *)
Theorem a_run_keeps_what_it_does_not_extract w sources options c :
  returned (parse w sources options) = Ok c →
  ∃ contexts original t,
    translations (initial_catalog w options) = Contexts contexts
    ∧ contexts !! "" = Some original
    ∧ translations c = Contexts (<["" := t]> contexts)
    ∧ charset c = charset (initial_catalog w options)
    ∧ dom original ⊆ dom t
    ∧ (∀ k o, original !! k = Some o → not_extracted w options sources k →
              t !! k = Some o).
Proof.
  intros Hc.
  destruct (translations (initial_catalog w options)) as [| |contexts] eqn:Ht;
    try (unfold parse in Hc; rewrite Ht in Hc; discriminate).
  destruct (contexts !! "") as [original|] eqn:Ho;
    [|unfold parse in Hc; rewrite Ht, Ho in Hc; discriminate].
  rewrite (parse_well_formed _ _ _ _ _ Ht Ho) in Hc. simpl in Hc.
  apply bind_Ok in Hc as (t & Ht' & Hc). injection Hc as <-. simpl.
  exists contexts, original, t. repeat split; try done.
  - by eapply extraction_dom.
  - intros k o Hk Hno. by eapply extraction_stale.
Qed.

Lemma a_run_keeps_what_it_does_not_extract_witness :
  ∃ c contexts t,
    returned (parse Samples.german_catalog MoreSamples.one_source
                Samples.joining) = Ok c
    ∧ translations c = Contexts (<["" := t]> contexts)
    ∧ t !! "bye" = Some Samples.adieu.
Proof.
  destruct (returned (parse Samples.german_catalog MoreSamples.one_source
                        Samples.joining))
    as [c|e] eqn:Hc; [|vm_compute in Hc; discriminate].
  destruct (a_run_keeps_what_it_does_not_extract _ _ _ _ Hc)
    as (contexts & original & t & Hctx & Horig & Htr & _ & _ & Hstale).
  exists c, contexts, t. split; [reflexivity|]. split; [exact Htr|].
  apply Hstale.
  - vm_compute in Hctx. injection Hctx as <-.
    vm_compute in Horig. injection Horig as <-. vm_compute. reflexivity.
  - intros filename source E Hin HE.
    apply list_elem_of_singleton in Hin. injection Hin as -> ->.
    vm_compute in HE. injection HE as <-. vm_compute. reflexivity.
Defined.

Lemma each_source_ext w1 w2 regex names strict sources (st : translations_t) :
  (∀ s, parser_parse w1 s = parser_parse w2 s) →
  each_source w1 regex names strict sources st
  = each_source w2 regex names strict sources st.
Proof.
  intros Hp. revert st. induction sources as [|[f s] rest IH]; intros st;
    simpl; [done|].
  unfold parseFile. rewrite Hp.
  destruct (parser_parse w2 (strip_hashbang s)); simpl; [|done].
  destruct (parseFile_parsed _ _ _ _ _); simpl; [|done]. apply IH.
Qed.

(** X9.  Without [joinExisting] a run depends on the world only through
    the parser and the clock read for the default headers: the catalog
    file, the paths and the later reading of the clock do not matter. *)
Theorem without_joinExisting_no_file_and_no_second_clock w1 w2 sources options :
  joinExisting options = false →
  (∀ s, parser_parse w1 s = parser_parse w2 s) →
  clock_defaultHeaders w1 = clock_defaultHeaders w2 →
  parse w1 sources options = parse w2 sources options.
Proof.
  intros Hj Hp Hc. unfold parse, initial_catalog, fresh_catalog, defaultHeaders.
  rewrite Hj, Hc. simpl. rewrite lookup_singleton_eq.
  by rewrite (each_source_ext w1 w2) by done.
Qed.

Lemma without_joinExisting_no_file_and_no_second_clock_witness :
  parse Samples.no_catalog MoreSamples.one_source Samples.with_keyword
  = parse Samples.german_catalog MoreSamples.one_source Samples.with_keyword.
Proof.
  apply without_joinExisting_no_file_and_no_second_clock;
    [reflexivity | intros s; reflexivity | reflexivity].
Defined.

Lemma initial_catalog_set_keyword w options kw :
  initial_catalog w (set_keyword options kw) = initial_catalog w options.
Proof. reflexivity. Qed.

(** X10.  A second run with the options object a first run has left
    appends the aliases once more: after the first run the list is the
    given names followed by their aliases (or the two default names),
    after the second it is that list followed by the aliases of all its
    names. *)
Theorem a_second_run_prefixes_the_aliases_again
    w sources sources' options contexts :
  translations (initial_catalog w options) = Contexts contexts →
  is_Some (contexts !! "") →
  let once :=
    match keyword options with
    | Some names => names ++ (String.append "n" <$> names)
    | None => ["gettext"; "ngettext"]
    end in
  keyword (left_options (parse w sources options)) = Some once
  ∧ keyword (left_options
               (parse w sources' (left_options (parse w sources options))))
    = Some (once ++ (String.append "n" <$> once)).
Proof.
  intros Ht [original Ho] once.
  rewrite (parse_well_formed _ sources _ _ _ Ht Ho).
  cbn [left_options set_keyword keyword].
  rewrite configure_keyword_spec. split; [done|].
  rewrite (parse_well_formed _ sources' _ contexts original).
  - cbn [left_options set_keyword keyword]. by rewrite configure_keyword_spec.
  - by rewrite initial_catalog_set_keyword.
  - done.
Qed.

Lemma a_second_run_prefixes_the_aliases_again_witness :
  keyword (left_options
             (parse Samples.no_catalog []
                (left_options
                   (parse Samples.no_catalog [] Samples.with_keyword))))
  = Some ["_"; "n_"; "n_"; "nn_"].
Proof.
  apply (proj2 (a_second_run_prefixes_the_aliases_again Samples.no_catalog
                  [] [] Samples.with_keyword {[ "" := ∅ ]}
                  eq_refl ltac:(vm_compute; eauto))).
Defined.

Lemma extraction_has_every_file w options sources (start t : translations_t)
    filename source E :
  extraction w sources options start = Ok t →
  (filename, source) ∈ sources →
  parseFile (parser_parse w) filename source (commentRegex_for options)
    (configure_keyword (keyword options)) (sanity options) = Ok E →
  dom E ⊆ dom t.
Proof.
  revert start. induction sources as [|[f s] rest IH]; intros start Ht Hin HE.
  - by apply elem_of_nil in Hin.
  - rewrite extraction_cons in Ht. apply bind_Ok in Ht as (E' & HE' & Hrest).
    apply elem_of_cons in Hin as [[= -> ->]|Hin].
    + rewrite HE in HE'. injection HE' as <-.
      apply extraction_dom in Hrest. rewrite mergeTranslations_dom in Hrest.
      set_solver.
    + by eapply IH.
Qed.

(** X11.  When a run returns a catalog, every source file was extracted
    without an error and every msgid of its extraction is a msgid of
    the default context of the catalog. *)
Theorem a_run_has_every_extracted_msgid w sources options c filename source :
  returned (parse w sources options) = Ok c →
  (filename, source) ∈ sources →
  ∃ E contexts t,
    parseFile (parser_parse w) filename source (commentRegex_for options)
      (configure_keyword (keyword options)) (sanity options) = Ok E
    ∧ translations c = Contexts contexts
    ∧ contexts !! "" = Some t
    ∧ dom E ⊆ dom t.
Proof.
  intros Hc Hin.
  destruct (translations (initial_catalog w options)) as [| |contexts] eqn:Ht;
    try (unfold parse in Hc; rewrite Ht in Hc; discriminate).
  destruct (contexts !! "") as [original|] eqn:Ho;
    [|unfold parse in Hc; rewrite Ht, Ho in Hc; discriminate].
  rewrite (parse_well_formed _ _ _ _ _ Ht Ho) in Hc. simpl in Hc.
  apply bind_Ok in Hc as (t & Ht' & Hc). injection Hc as <-. simpl.
  assert (∃ E, parseFile (parser_parse w) filename source
                 (commentRegex_for options)
                 (configure_keyword (keyword options)) (sanity options) = Ok E)
    as [E HE].
  { clear -Ht' Hin. revert Ht'. generalize original.
    induction sources as [|[f s] rest IH]; intros start Ht.
    - by apply elem_of_nil in Hin.
    - rewrite extraction_cons in Ht. apply bind_Ok in Ht as (E' & HE' & Hrest).
      apply elem_of_cons in Hin as [[= -> ->]|Hin]; [eauto|].
      by eapply IH. }
  exists E, (<["" := t]> contexts), t. split; [done|]. split; [done|].
  split; [by rewrite lookup_insert_eq|]. by eapply extraction_has_every_file.
Qed.

Lemma a_run_has_every_extracted_msgid_witness :
  ∃ E contexts t,
    parseFile (parser_parse Samples.german_catalog) "a.js" "gettext('hello')"
      (commentRegex_for Samples.joining)
      (configure_keyword (keyword Samples.joining)) (sanity Samples.joining)
    = Ok E
    ∧ (∃ c, returned (parse Samples.german_catalog MoreSamples.one_source
                        Samples.joining) = Ok c
            ∧ translations c = Contexts contexts)
    ∧ contexts !! "" = Some t
    ∧ dom E ⊆ dom t.
Proof.
  destruct (returned (parse Samples.german_catalog MoreSamples.one_source
                        Samples.joining))
    as [c|e] eqn:Hc; [|vm_compute in Hc; discriminate].
  destruct (a_run_has_every_extracted_msgid _ _ _ _ "a.js" "gettext('hello')"
              Hc ltac:(left))
    as (E & contexts & t & HE & Htr & Ht & Hdom).
  exists E, contexts, t. split; [exact HE|]. split; [by exists c|].
  split; [exact Ht | exact Hdom].
Defined.

(** ** Where the msgids come from *)

Lemma bind_Err {E A B} (r : js_result E A) (k : A → js_result E B) e :
  (r ≫= k) = Err e ↔ r = Err e ∨ ∃ a, r = Ok a ∧ k a = Err e.
Proof.
  destruct r; simpl; split.
  - eauto.
  - by intros [[=] | (? & [= ->] & ?)].
  - intros [= ->]. by left.
  - by intros [[= ->] | (? & [=] & ?)].
Qed.

Section WalkRelationAt.
Context {S : Type} (found : node → S → result S).
Variable R : node → S → S → Prop.
Hypothesis R_refl : ∀ n st, R n st st.
Hypothesis R_trans : ∀ n a b c, R n a b → R n b c → R n a c.
Hypothesis R_edge : ∀ n x a b, walk_edge n x → R x a b → R n a b.
Hypothesis R_found : ∀ callee args line st st',
  found (CallExpression callee args line) st = Ok st' →
  R (CallExpression callee args line) st st'.

Lemma each_related_at n l :
  (∀ x, x ∈ l → walk_edge n x) →
  Forall (λ x, ∀ st st', simple found x st = Ok st' → R x st st') l →
  ∀ st st', each (simple found) l st = Ok st' → R n st st'.
Proof.
  intros Hedge Hall. revert Hedge.
  induction Hall as [|x l Hx _ IH]; intros Hedge st st'; simpl.
  - intros [= ->]. apply R_refl.
  - intros (st1 & H1 & H2)%bind_Ok. apply R_trans with st1.
    + apply R_edge with x; [apply Hedge; by left | by apply Hx].
    + apply IH; [|done]. intros y Hy. apply Hedge. by right.
Qed.

Lemma simple_related_at n :
  ∀ st st', simple found n st = Ok st' → R n st st'.
Proof.
  induction n
    as [name | v | op l r IHl IHr | o p c IHo IHp
       | callee args line IHc IHargs | attrs kids IHattrs IHkids
       | | v IHv | a IHa | e IHe | | type subnodes IHs]
    using node_nested_ind; intros st st'; rewrite simple_unfold;
    intros (st1 & Hbase & Hfound)%bind_Ok; simpl in Hbase.
  - simplify_eq; eauto.
  - simplify_eq; eauto.
  - apply bind_Ok in Hbase as (st2 & H1 & H2). simplify_eq.
    apply R_trans with st2.
    + eapply R_edge; [apply edge_left | eauto].
    + eapply R_edge; [apply edge_right | eauto].
  - apply bind_Ok in Hbase as (st2 & H1 & H2).
    apply R_trans with st2; [eapply R_edge; [apply edge_object | eauto]|].
    destruct c; simplify_eq; [|apply R_refl].
    eapply R_edge; [apply edge_computed_property | eauto].
  - apply bind_Ok in Hbase as (st2 & H1 & H2).
    apply R_trans with st1; [|by apply R_found].
    apply R_trans with st2; [eapply R_edge; [apply edge_callee | eauto]|].
    apply (each_related_at _ args); [|done|exact H2].
    intros x Hx. by apply edge_argument.
  - apply bind_Ok in Hbase as (st2 & H1 & H2). simplify_eq.
    apply R_trans with st2.
    + apply (each_related_at _ attrs); [|done|exact H1].
      intros x Hx. by apply edge_attribute.
    + apply (each_related_at _ kids); [|done|exact H2].
      intros x Hx. by apply edge_child.
  - discriminate.
  - destruct v; simplify_eq; try apply R_refl.
    eapply R_edge; [apply edge_attribute_value | eauto].
  - simplify_eq. eapply R_edge; [apply edge_spread_argument | eauto].
  - simplify_eq. eapply R_edge; [apply edge_container_expression | eauto].
  - simplify_eq; eauto.
  - simplify_eq. apply (each_related_at _ subnodes); [|done|exact Hbase].
    intros x Hx. by apply edge_subnode.
Qed.
End WalkRelationAt.

Lemma visitor_origin filename astComments names strict n
    (st st' : translations_t) k :
  visitor filename astComments names strict n st = Ok st' →
  is_Some (st' !! k) →
  is_Some (st !! k)
  ∨ ∃ rest, maybeExtractMsgids n names strict = Ok (Some (k :: rest)).
Proof.
  intros [[-> _]|(k' & rest & Hm & _ & ->)]%visitor_Ok Hk; [by left|].
  destruct (decide (k' = k)) as [->|Hne]; [eauto|].
  left. by rewrite lookup_insert_ne in Hk.
Qed.

Lemma simple_grown_by_calls filename astComments names strict n
    (st st' : translations_t) :
  simple (visitor filename astComments names strict) n st = Ok st' →
  grown_by_calls names strict n st st'.
Proof.
  apply (simple_related_at _ (grown_by_calls names strict)).
  - intros ? ? k' ?. by left.
  - intros n' a b c Hab Hbc k' Hk'.
    destruct (Hbc k' Hk') as [Hb|?]; [|by right]. by apply Hab.
  - intros n' x a b Hedge Hab k' Hk'.
    destruct (Hab k' Hk') as [?|(c & ar & l & rest & Hn & Hm)]; [by left|].
    right. exists c, ar, l, rest. split; [|done]. by eapply nested_in_step.
  - intros callee args line a b Hv k' Hk'.
    destruct (visitor_origin _ _ _ _ _ _ _ _ Hv Hk') as [?|[rest Hm]];
      [by left|].
    right. exists callee, args, line, rest. split; [apply rtc_refl | done].
Qed.

(** X12.  Every msgid in the result of a file is the first string
    extracted at a call expression that lies on or below the root along
    the edges of the walk; nothing else puts a msgid into the result. *)
Theorem every_msgid_comes_from_a_call_of_the_walk
    filename p regex names strict t k :
  parseFile_parsed filename p regex names strict = Ok t →
  is_Some (t !! k) →
  ∃ callee args line rest,
    nested_in (parsed_ast p) (CallExpression callee args line)
    ∧ maybeExtractMsgids (CallExpression callee args line) names strict
      = Ok (Some (k :: rest)).
Proof.
  unfold parseFile_parsed. intros Ht Hk.
  destruct (simple_grown_by_calls _ _ _ _ _ _ _ Ht k Hk) as [[? He]|?];
    [|done].
  by rewrite lookup_empty in He.
Qed.

Lemma every_msgid_comes_from_a_call_of_the_walk_witness :
  ∃ callee args line rest,
    nested_in (parsed_ast Samples.hello_file) (CallExpression callee args line)
    ∧ maybeExtractMsgids (CallExpression callee args line)
        Samples.default_names false
      = Ok (Some ("hello" :: rest)).
Proof.
  apply (every_msgid_comes_from_a_call_of_the_walk "a.js" Samples.hello_file
           Samples.default_regex Samples.default_names false
           Samples.extracted_hello "hello").
  - vm_compute; reflexivity.
  - vm_compute; eauto.
Defined.

(** ** Where the errors come from *)

Section WalkError.
Context {S : Type} (found : node → S → result S).

Lemma error_origin_edge n x e :
  walk_edge n x → error_origin found x e → error_origin found n e.
Proof.
  intros Hedge [[-> Hn] | (c & a & l & st & Hn & Hf)].
  - left. split; [done|]. by eapply nested_in_step.
  - right. exists c, a, l, st. split; [|done]. by eapply nested_in_step.
Qed.

Lemma each_error n l :
  (∀ x, x ∈ l → walk_edge n x) →
  Forall (λ x, ∀ st e, simple found x st = Err e → error_origin found x e) l →
  ∀ st e, each (simple found) l st = Err e → error_origin found n e.
Proof.
  intros Hedge Hall. revert Hedge.
  induction Hall as [|x l Hx _ IH]; intros Hedge st e; simpl; [done|].
  intros [H1 | (st1 & H1 & H2)]%bind_Err.
  - apply error_origin_edge with x; [apply Hedge; by left | by eapply Hx].
  - eapply IH; [|exact H2]. intros y Hy. apply Hedge. by right.
Qed.

Lemma simple_error n :
  ∀ st e, simple found n st = Err e → error_origin found n e.
Proof.
  induction n
    as [name | v | op l r IHl IHr | o p c IHo IHp
       | callee args line IHc IHargs | attrs kids IHattrs IHkids
       | | v IHv | a IHa | e' IHe | | type subnodes IHs]
    using node_nested_ind; intros st e; rewrite simple_unfold;
    intros [Hbase | (st1 & Hbase & Hfound)]%bind_Err; simpl in Hbase;
    try discriminate.
  - apply bind_Err in Hbase as [H1 | (st2 & H1 & H2)].
    + eapply error_origin_edge; [apply edge_left | eauto].
    + eapply error_origin_edge; [apply edge_right | eauto].
  - apply bind_Err in Hbase as [H1 | (st2 & H1 & H2)].
    + eapply error_origin_edge; [apply edge_object | eauto].
    + destruct c; [|discriminate].
      eapply error_origin_edge; [apply edge_computed_property | eauto].
  - apply bind_Err in Hbase as [H1 | (st2 & H1 & H2)].
    + eapply error_origin_edge; [apply edge_callee | eauto].
    + apply (each_error _ args) with st2; [|done|exact H2].
      intros x Hx. by apply edge_argument.
  - right. exists callee, args, line, st1. split; [apply rtc_refl | done].
  - apply bind_Err in Hbase as [H1 | (st2 & H1 & H2)].
    + apply (each_error _ attrs) with st; [|done|exact H1].
      intros x Hx. by apply edge_attribute.
    + apply (each_error _ kids) with st2; [|done|exact H2].
      intros x Hx. by apply edge_child.
  - injection Hbase as <-. left. split; [done | apply rtc_refl].
  - destruct v; try discriminate.
    eapply error_origin_edge; [apply edge_attribute_value | eauto].
  - eapply error_origin_edge; [apply edge_spread_argument | eauto].
  - eapply error_origin_edge; [apply edge_container_expression | eauto].
  - apply (each_error _ subnodes) with st; [|done|exact Hbase].
    intros x Hx. by apply edge_subnode.
Qed.
End WalkError.

Lemma maybeExtractMsgids_error n names strict e :
  maybeExtractMsgids n names strict = Err e →
  strict = true
  ∧ ∃ name args,
      getFunctionNameAndArguments n = Some (Some name, args)
      ∧ indexOf name names ≠ None
      ∧ qualifies (args !! 0) = false
      ∧ e = CouldNotParseTranslatable (args !! 0).
Proof.
  unfold maybeExtractMsgids.
  destruct (getFunctionNameAndArguments n) as [[[name|] args]|]; try done.
  unfold not_allowed. case_bool_decide as Hname; [done|].
  intros He.
  assert (qualifies (args !! 0) = false
          ∧ strict = true ∧ e = CouldNotParseTranslatable (args !! 0))
    as (Hq & -> & ->).
  { destruct (args !! 0) as [a1|], (args !! 1) as [a2|]; simpl in *;
      repeat match type of He with
             | context [isString ?a] =>
                 let H := fresh "Hs" in
                 destruct (isString a) eqn:H; simpl in He;
                 rewrite ?(extractStr_isString a) in He by done; simpl in He
             | context [starts_with_n ?a] =>
                 destruct (starts_with_n a); simpl in He
             | context [if strict then _ else _] => destruct strict
             end;
      simplify_eq; done. }
  split; [done|]. exists name, args. done.
Qed.

Lemma visitor_error filename astComments names strict n
    (st : translations_t) e :
  visitor filename astComments names strict n st = Err e →
  maybeExtractMsgids n names strict = Err e
  ∨ (e = not_a_function
     ∧ ∃ k rest, maybeExtractMsgids n names strict = Ok (Some (k :: rest))
                 ∧ has_property k st = true).
Proof.
  unfold visitor. intros [H | (r & Hr & H)]%bind_Err; [by left|].
  destruct r as [[|k rest]|]; try done. right.
  destruct (has_property k st) eqn:Hk; [|done].
  injection H as <-. split; [done|]. by exists k, rest.
Qed.

(** X13.  The extraction of a file fails in three ways only: with the
    type error of an attribute without a value that lies below the
    root; in strict mode, with the error that carries the first
    argument of a call below the root whose name is allowed and whose
    first argument does not qualify as a string; or with the type error
    of the call of [poHelper.mergeTranslation], at a call below the
    root at which a string is extracted. *)
Theorem errors_of_an_extraction filename p regex names strict e :
  parseFile_parsed filename p regex names strict = Err e →
  (e = TypeError "Cannot read property 'type' of null"
   ∧ nested_in (parsed_ast p) (JSXAttribute None))
  ∨ (strict = true
     ∧ ∃ callee args line name args',
         nested_in (parsed_ast p) (CallExpression callee args line)
         ∧ getFunctionNameAndArguments (CallExpression callee args line)
           = Some (Some name, args')
         ∧ indexOf name names ≠ None
         ∧ qualifies (args' !! 0) = false
         ∧ e = CouldNotParseTranslatable (args' !! 0))
  ∨ (e = not_a_function
     ∧ ∃ callee args line k rest,
         nested_in (parsed_ast p) (CallExpression callee args line)
         ∧ maybeExtractMsgids (CallExpression callee args line) names strict
           = Ok (Some (k :: rest))).
Proof.
  unfold parseFile_parsed. intros He.
  apply simple_error in He as [?|(c & a & l & st & Hn & Hv)]; [by left|].
  right. apply visitor_error in Hv as [Hv|(-> & k & rest & Hm & _)].
  - left. apply maybeExtractMsgids_error in Hv
      as (-> & name & args' & ? & ? & ? & ->).
    split; [done|]. by exists c, a, l, name, args'.
  - right. split; [done|]. by exists c, a, l, k, rest.
Qed.

Lemma errors_of_an_extraction_witness :
  (not_a_function = TypeError "Cannot read property 'type' of null"
   ∧ nested_in (parsed_ast Samples.twice_file) (JSXAttribute None))
  ∨ (true = true
     ∧ ∃ callee args line name args',
         nested_in (parsed_ast Samples.twice_file)
           (CallExpression callee args line)
         ∧ getFunctionNameAndArguments (CallExpression callee args line)
           = Some (Some name, args')
         ∧ indexOf name Samples.default_names ≠ None
         ∧ qualifies (args' !! 0) = false
         ∧ not_a_function = CouldNotParseTranslatable (args' !! 0))
  ∨ (not_a_function = not_a_function
     ∧ ∃ callee args line k rest,
         nested_in (parsed_ast Samples.twice_file)
           (CallExpression callee args line)
         ∧ maybeExtractMsgids (CallExpression callee args line)
             Samples.default_names true
           = Ok (Some (k :: rest))).
Proof.
  apply (errors_of_an_extraction "a.js" Samples.twice_file
           Samples.default_regex Samples.default_names true).
  reflexivity.
Defined.

(** ** The hash-bang line and the captured comments *)

Lemma drop_line_split s :
  ∃ removed, s = removed +:+ drop_line s ∧ has_terminator removed = false.
Proof.
  induction s as [|c s (removed & Hs & Hr)]; simpl.
  - by exists "".
  - destruct (is_line_terminator c) eqn:Hc.
    + by exists "".
    + exists (String c removed). rewrite append_String, <- Hs. simpl.
      by rewrite Hc, Hr.
Qed.

Lemma drop_line_start s :
  drop_line s = "" ∨ ∃ c rest, drop_line s = String c rest
                               ∧ is_line_terminator c = true.
Proof.
  induction s as [|c s IH]; simpl; [by left|].
  destruct (is_line_terminator c) eqn:Hc; [|done]. right. by exists c, s.
Qed.

(** X14.  Stripping the hash-bang removes text from the front of the
    source that holds no line terminator, so every line keeps its
    number; a source that does not begin with a hash is unchanged, and
    stripping twice is stripping once. *)
Theorem strip_hashbang_keeps_the_lines s :
  (∃ removed, s = removed +:+ strip_hashbang s
              ∧ has_terminator removed = false)
  ∧ (String.prefix "#" s = false → strip_hashbang s = s)
  ∧ strip_hashbang (strip_hashbang s) = strip_hashbang s.
Proof.
  split; [|split].
  - destruct s as [|c s]; simpl; [by exists ""|].
    destruct (Ascii.eqb_spec c hash) as [->|Hc]; [|by exists ""].
    destruct (drop_line_split s) as (removed & Hs & Hr).
    exists (String hash removed). rewrite append_String, <- Hs. done.
  - destruct s as [|c s]; simpl; [done|].
    destruct (Ascii.eqb_spec c hash) as [->|Hc]; [|done].
    destruct s; discriminate.
  - destruct s as [|c s]; simpl; [done|].
    destruct (Ascii.eqb_spec c hash) as [->|Hc].
    + destruct (drop_line_start s) as [->|(c & rest & -> & Hc)]; [done|].
      simpl. destruct (Ascii.eqb_spec c hash) as [->|]; [discriminate|done].
    + simpl. by destruct (Ascii.eqb_spec c hash).
Qed.

Lemma strip_hashbang_keeps_the_lines_witness :
  strip_hashbang "gettext('hello')" = "gettext('hello')".
Proof.
  apply (proj1 (proj2 (strip_hashbang_keeps_the_lines "gettext('hello')"))).
  reflexivity.
Defined.

Lemma trim_start_no_space s : starts_with_space (trim_start s) = false.
Proof.
  induction s as [|c s IH]; simpl; [done|].
  destruct (is_space c) eqn:Hc; [done|]. simpl. by rewrite Hc.
Qed.

Lemma trim_start_id s : starts_with_space s = false → trim_start s = s.
Proof. destruct s as [|c s]; simpl; [done|]. by intros ->. Qed.

Lemma trim_end_no_space s :
  starts_with_space s = false → starts_with_space (trim_end s) = false.
Proof.
  destruct s as [|c s]; simpl; [done|]. intros Hc.
  destruct (trim_end s); simpl; by rewrite Hc.
Qed.

Lemma trim_end_idem s : trim_end (trim_end s) = trim_end s.
Proof.
  induction s as [|c s IH]; simpl; [done|].
  destruct (trim_end s) as [|d t] eqn:E.
  - destruct (is_space c) eqn:Hc; simpl; [done | by rewrite Hc].
  - change (trim_end (String c (String d t)))
      with (match trim_end (String d t) with
            | EmptyString =>
                if is_space c then EmptyString else String c EmptyString
            | t' => String c t'
            end).
    by rewrite IH.
Qed.

Lemma trim_idem s : trim (trim s) = trim s.
Proof.
  unfold trim.
  rewrite (trim_start_id (trim_end (trim_start s))).
  - apply trim_end_idem.
  - apply trim_end_no_space, trim_start_no_space.
Qed.

(** X15.  Every comment the callback has captured has a text that is
    not empty and has no white space at its beginning or at its end. *)
Theorem captured_comments_are_trimmed regex toks :
  Forall (λ c, comment_value c ≠ ""
               ∧ trim (comment_value c) = comment_value c)
    (foldl (onComment regex) [] toks).
Proof.
  rewrite captured_omap. simpl. apply Forall_forall.
  intros c (tok & _ & Hk)%list_elem_of_omap. unfold kept in Hk.
  destruct (regex (token_text tok)); simpl in Hk; [|done].
  destruct (truthy _) eqn:Ht; [|done]. injection Hk as <-. simpl.
  split; [|apply trim_idem]. intros He. by rewrite He in Ht.
Qed.

(** ** Calls to other functions *)

(** X16.  Strings are extracted at a node only if it is a call whose
    resolved name is one of the allowed names and whose first argument
    qualifies as a string; the result then has the text of the first
    argument, or the texts of the first two when the name begins with
    "n" and the second qualifies too.  A node whose name does not
    resolve to an allowed name is passed over without an error, in
    strict mode as well. *)
Theorem only_allowed_calls_are_extracted n names strict :
  (∀ ms, maybeExtractMsgids n names strict = Ok (Some ms) →
     ∃ name args,
       getFunctionNameAndArguments n = Some (Some name, args)
       ∧ indexOf name names ≠ None
       ∧ qualifies (args !! 0) = true
       ∧ (ms = [text_of (args !! 0)]
          ∨ (ms = [text_of (args !! 0); text_of (args !! 1)]
             ∧ starts_with_n name = true
             ∧ qualifies (args !! 1) = true)))
  ∧ ((∀ name args, getFunctionNameAndArguments n = Some (Some name, args) →
                   indexOf name names = None) →
     maybeExtractMsgids n names strict = Ok None).
Proof.
  split.
  - intros ms. unfold maybeExtractMsgids.
    destruct (getFunctionNameAndArguments n) as [[[name|] args]|]; try done.
    unfold not_allowed. case_bool_decide as Hname; [done|].
    intros He. exists name, args. split; [done|]. split; [done|].
    destruct (args !! 0) as [a1|], (args !! 1) as [a2|]; simpl in *;
      repeat match type of He with
             | context [isString ?a] =>
                 let H := fresh "Hs" in
                 destruct (isString a) eqn:H; simpl in He;
                 rewrite ?(extractStr_isString a) in He by done; simpl in He
             | context [starts_with_n ?a] =>
                 let H := fresh "Hn" in
                 destruct (starts_with_n a) eqn:H; simpl in He
             | context [if strict then _ else _] => destruct strict
             end;
      simplify_eq; auto.
  - intros Hnot. unfold maybeExtractMsgids.
    destruct (getFunctionNameAndArguments n) as [[[name|] args]|]; try done.
    unfold not_allowed. by rewrite (Hnot name args eq_refl), bool_decide_eq_true_2.
Qed.

Lemma only_allowed_calls_are_extracted_witness :
  maybeExtractMsgids (Samples.call "alert" [Identifier "x"] 1)
    Samples.default_names true = Ok None.
Proof.
  apply (proj2 (only_allowed_calls_are_extracted
                  (Samples.call "alert" [Identifier "x"] 1)
                  Samples.default_names true)).
  intros name args [= <- <-]. reflexivity.
Defined.

(** ** The order of the visits *)

Lemma visit_all_app {S} (found : node → S → result S) a b st :
  visit_all found (a ++ b) st = visit_all found a st ≫= visit_all found b.
Proof.
  revert st. induction a as [|c a IH]; intros st; simpl; [done|].
  destruct (found c st); simpl; [apply IH | done].
Qed.

Lemma bind_assoc {E A B C} (r : js_result E A) (f : A → js_result E B)
    (g : B → js_result E C) :
  (r ≫= f) ≫= g = r ≫= (λ a, f a ≫= g).
Proof. by destruct r. Qed.

Lemma bind_ext {E A B} (r : js_result E A) (f g : A → js_result E B) :
  (∀ a, f a = g a) → r ≫= f = r ≫= g.
Proof. intros H. destruct r; simpl; [apply H | done]. Qed.

Lemma each_walks_as l :
  Forall walks_as l →
  ∀ acc r, each (simple note_call) l acc = Ok r →
    ∃ calls, r = acc ++ calls
             ∧ ∀ S (found : node → S → result S) st,
                 each (simple found) l st = visit_all found calls st.
Proof.
  induction 1 as [|x l Hx _ IH]; intros acc r; simpl.
  - intros [= <-]. exists []. by rewrite app_nil_r.
  - intros (r1 & H1 & H2)%bind_Ok.
    destruct (Hx _ _ H1) as (c1 & -> & Hc1).
    destruct (IH _ _ H2) as (c2 & -> & Hc2).
    exists (c1 ++ c2). split; [by rewrite app_assoc|].
    intros S found st. rewrite visit_all_app, Hc1.
    apply bind_ext. intros a. apply Hc2.
Qed.

Lemma simple_walks_as n : walks_as n.
Proof.
  induction n
    as [name | v | op l r IHl IHr | o p c IHo IHp
       | callee args line IHc IHargs | attrs kids IHattrs IHkids
       | | v IHv | a IHa | e IHe | | type subnodes IHs]
    using node_nested_ind; intros acc log; rewrite simple_unfold;
    intros (st1 & Hbase & Hfound)%bind_Ok; simpl in Hbase.
  - simplify_eq. exists []. by rewrite app_nil_r.
  - simplify_eq. exists []. by rewrite app_nil_r.
  - apply bind_Ok in Hbase as (st2 & H1 & H2). simplify_eq.
    destruct (IHl _ _ H1) as (c1 & -> & Hc1).
    destruct (IHr _ _ H2) as (c2 & -> & Hc2).
    exists (c1 ++ c2). split; [by rewrite app_assoc|].
    intros S found st. rewrite simple_unfold. simpl.
    rewrite visit_all_app, Hc1, bind_assoc. apply bind_ext. intros a.
    rewrite Hc2. by destruct (visit_all found c2 a).
  - apply bind_Ok in Hbase as (st2 & H1 & H2). simplify_eq.
    destruct (IHo _ _ H1) as (c1 & -> & Hc1).
    destruct c.
    + destruct (IHp _ _ H2) as (c2 & -> & Hc2).
      exists (c1 ++ c2). split; [by rewrite app_assoc|].
      intros S found st. rewrite simple_unfold. simpl.
      rewrite visit_all_app, Hc1, bind_assoc. apply bind_ext. intros a.
      rewrite Hc2. by destruct (visit_all found c2 a).
    + simplify_eq. exists c1. split; [done|].
      intros S found st. rewrite simple_unfold. simpl.
      rewrite Hc1. by destruct (visit_all found c1 st).
  - apply bind_Ok in Hbase as (st2 & H1 & H2).
    destruct (IHc _ _ H1) as (c1 & -> & Hc1).
    destruct (each_walks_as _ IHargs _ _ H2) as (c2 & -> & Hc2).
    unfold note_call in Hfound. simplify_eq.
    exists (c1 ++ c2 ++ [CallExpression callee args line]).
    split; [by rewrite !app_assoc|].
    intros S found st. rewrite simple_unfold. simpl.
    rewrite visit_all_app, Hc1, !bind_assoc. apply bind_ext. intros a.
    rewrite Hc2, visit_all_app. apply bind_ext. intros b. simpl.
    by destruct (found _ b).
  - apply bind_Ok in Hbase as (st2 & H1 & H2). simplify_eq.
    destruct (each_walks_as _ IHattrs _ _ H1) as (c1 & -> & Hc1).
    destruct (each_walks_as _ IHkids _ _ H2) as (c2 & -> & Hc2).
    exists (c1 ++ c2). split; [by rewrite app_assoc|].
    intros S found st. rewrite simple_unfold. simpl.
    rewrite visit_all_app, Hc1, bind_assoc. apply bind_ext. intros a.
    rewrite Hc2. by destruct (visit_all found c2 a).
  - discriminate.
  - destruct v; simplify_eq; try (exists []; split;
      [by rewrite app_nil_r | by intros; rewrite simple_unfold]).
    destruct (IHv _ _ Hbase) as (c1 & -> & Hc1).
    exists c1. split; [done|]. intros S found st.
    rewrite simple_unfold. cbn [walkBase]. rewrite Hc1.
    by destruct (visit_all found c1 st).
  - simplify_eq. destruct (IHa _ _ Hbase) as (c1 & -> & Hc1).
    exists c1. split; [done|]. intros S found st.
    rewrite simple_unfold. cbn [walkBase]. rewrite Hc1.
    by destruct (visit_all found c1 st).
  - simplify_eq. destruct (IHe _ _ Hbase) as (c1 & -> & Hc1).
    exists c1. split; [done|]. intros S found st.
    rewrite simple_unfold. cbn [walkBase]. rewrite Hc1.
    by destruct (visit_all found c1 st).
  - simplify_eq. exists []. by rewrite app_nil_r.
  - simplify_eq.
    destruct (each_walks_as _ IHs _ _ Hbase) as (c1 & -> & Hc1).
    exists c1. split; [done|]. intros S found st.
    rewrite simple_unfold. cbn [walkBase]. rewrite Hc1.
    by destruct (visit_all found c1 st).
Qed.

(** X17.  When the walk of a tree with a visitor that only notes its
    calls ends with the list [calls], extracting the file is running
    the visitor of the extractor on [calls] from first to last; and
    the walk of a call expression notes that call last, after the
    calls inside its callee and its arguments. *)
Theorem the_walk_runs_the_visitor_on_the_calls_in_order
    filename p regex names strict calls :
  simple note_call (parsed_ast p) [] = Ok calls →
  parseFile_parsed filename p regex names strict
  = visit_all
      (visitor filename (foldl (onComment regex) [] (parsed_comments p))
         names strict)
      calls ∅
  ∧ (∀ callee args line inner,
       simple note_call (CallExpression callee args line) [] = Ok inner →
       ∃ before, inner = before ++ [CallExpression callee args line]).
Proof.
  intros H. split.
  - destruct (simple_walks_as _ _ _ H) as (calls' & -> & Hc).
    unfold parseFile_parsed. apply Hc.
  - intros callee args line inner. rewrite simple_unfold.
    intros (st1 & _ & Hnote)%bind_Ok. unfold note_call in Hnote.
    injection Hnote as <-. by exists st1.
Qed.

Lemma the_walk_runs_the_visitor_on_the_calls_in_order_witness :
  parseFile_parsed "a.js" Samples.hello_file Samples.default_regex
    Samples.default_names false
  = visit_all
      (visitor "a.js" [] Samples.default_names false)
      [Samples.call "gettext" [Samples.str "hello"] 1] ∅.
Proof.
  apply (proj1 (the_walk_runs_the_visitor_on_the_calls_in_order "a.js"
                  Samples.hello_file Samples.default_regex
                  Samples.default_names false
                  [Samples.call "gettext" [Samples.str "hello"] 1] eq_refl)).
Defined.

(** ** The entries are those built at the calls *)

Lemma simple_built_by_calls filename astComments names strict n
    (st st' : translations_t) :
  simple (visitor filename astComments names strict) n st = Ok st' →
  built_by_calls filename astComments names strict n st st'.
Proof.
  apply (simple_related_at _
           (built_by_calls filename astComments names strict)).
  - intros ? ? k e ?. by left.
  - intros n' a b c Hab Hbc k e Hk.
    destruct (Hbc k e Hk) as [Hb|?]; [|by right]. by apply Hab.
  - intros n' x a b Hedge Hab k e Hk.
    destruct (Hab k e Hk) as [?|(c & ar & l & rest & Hn & Hm & He)];
      [by left|].
    right. exists c, ar, l, rest. split; [|done]. by eapply nested_in_step.
  - intros callee args line a b Hv k e Hk.
    apply visitor_Ok in Hv as [[-> _]|(k' & rest & Hm & _ & ->)]; [by left|].
    destruct (decide (k' = k)) as [->|Hne].
    + rewrite lookup_insert_eq in Hk. injection Hk as <-.
      right. exists callee, args, line, rest.
      split; [apply rtc_refl | done].
    + rewrite lookup_insert_ne in Hk by done. by left.
Qed.

(** X18.  When a file is extracted, its result holds exactly the entries
    built at the calls below the root at which a string is extracted:
    every entry is the one built at such a call for its msgid, with
    the reference [filename:line] of that call and the comments
    attached to its line, and the entry built at every such call is in
    the result under its msgid as it was built. *)
Theorem the_entries_are_those_built_at_the_calls
    filename p regex names strict t :
  parseFile_parsed filename p regex names strict = Ok t →
  let astComments := foldl (onComment regex) [] (parsed_comments p) in
  (∀ k e, t !! k = Some e →
     ∃ callee args line rest,
       nested_in (parsed_ast p) (CallExpression callee args line)
       ∧ maybeExtractMsgids (CallExpression callee args line) names strict
         = Ok (Some (k :: rest))
       ∧ e = candidate filename astComments
               (CallExpression callee args line) k (k :: rest)
       ∧ (c ← comments e; reference c)
         = Some (filename +:+ ":" +:+ of_nat line)
       ∧ (c ← comments e; extracted c)
         = Some (findComments astComments line))
  ∧ (∀ callee args line k rest,
       nested_in (parsed_ast p) (CallExpression callee args line) →
       maybeExtractMsgids (CallExpression callee args line) names strict
       = Ok (Some (k :: rest)) →
       t !! k = Some (candidate filename astComments
                        (CallExpression callee args line) k (k :: rest))).
Proof.
  intros Ht astComments. split.
  - intros k e Hk. unfold parseFile_parsed in Ht.
    destruct (simple_built_by_calls _ _ _ _ _ _ _ Ht k e Hk)
      as [Hempty|(c & a & l & rest & Hn & Hm & ->)].
    + by rewrite lookup_empty in Hempty.
    + exists c, a, l, rest. done.
  - intros callee args line k rest Hn Hm.
    by eapply parseFile_parsed_stores.
Qed.

Lemma the_entries_are_those_built_at_the_calls_witness :
  Samples.extracted_hello !! "hello"
  = Some (candidate "a.js" [] (Samples.call "gettext" [Samples.str "hello"] 1)
            "hello" ["hello"]).
Proof.
  apply (proj2 (the_entries_are_those_built_at_the_calls "a.js"
                  Samples.hello_file Samples.default_regex
                  Samples.default_names false Samples.extracted_hello
                  ltac:(vm_compute; reflexivity))
           (Identifier "gettext") [Samples.str "hello"] 1 "hello" []).
  - apply nested_in_statement. left.
  - reflexivity.
Defined.

(** ** When the extraction of a file returns *)

Lemma bind_Ok_l {E A B} (a : A) (k : A → js_result E B) : (Ok a ≫= k) = k a.
Proof. reflexivity. Qed.

Lemma has_property_insert k' k e (st : translations_t) :
  has_property k' (<[k := e]> st) = false
  ↔ k' ≠ k ∧ has_property k' st = false.
Proof.
  rewrite !has_property_false. split.
  - intros [Hk Hp]. destruct (decide (k' = k)) as [->|Hne].
    + by rewrite lookup_insert_eq in Hk.
    + by rewrite lookup_insert_ne in Hk.
  - intros (Hne & Hk & Hp). by rewrite lookup_insert_ne.
Qed.

(** The visitor gets through a list of calls exactly when it finds a
    string or nothing at each of them, and the msgids it finds are
    different from each other and new to the object. *)
Lemma visit_all_returns filename astComments names strict calls
    (st : translations_t) :
  (∃ st', visit_all (visitor filename astComments names strict) calls st
          = Ok st')
  ↔ (∀ c, c ∈ calls → ∃ r, maybeExtractMsgids c names strict = Ok r)
    ∧ NoDup (omap (extracted_at names strict) calls)
    ∧ (∀ k, k ∈ omap (extracted_at names strict) calls →
            has_property k st = false).
Proof.
  revert st. induction calls as [|c calls IH]; intros st.
  { simpl. split; [|by eauto]. intros _.
    split; [by intros ? ?%elem_of_nil|].
    split; [constructor | by intros ? ?%elem_of_nil]. }
  assert (∀ P : node → Prop,
            (∀ c', c' ∈ c :: calls → P c') ↔ P c ∧ ∀ c', c' ∈ calls → P c')
    as Hcons.
  { intros P. split.
    - intros H. split; [apply H; by left | intros c' Hc'; apply H; by right].
    - intros [Hc H] c' [->|Hc']%elem_of_cons; [done | by apply H]. }
  rewrite Hcons. cbn [visit_all omap list_omap].
  destruct (maybeExtractMsgids c names strict) as [[[|k rest]|]|err] eqn:Hm.
  - assert (extracted_at names strict c = None) as ->
      by (unfold extracted_at; by rewrite Hm).
    assert (visitor filename astComments names strict c st = Ok st) as ->
      by (unfold visitor; by rewrite Hm).
    rewrite bind_Ok_l, IH. split.
    + intros (Hall & Hnd & Hnew). split; [split; [eauto | done] | done].
    + by intros ([_ Hall] & Hnd & Hnew).
  - assert (extracted_at names strict c = Some k) as ->
      by (unfold extracted_at; by rewrite Hm).
    destruct (has_property k st) eqn:Hk.
    + assert (visitor filename astComments names strict c st
              = Err not_a_function) as ->
        by (unfold visitor; rewrite Hm; simpl; by rewrite Hk).
      split; [by intros [? [=]]|]. intros (_ & _ & Hnew).
      rewrite Hnew in Hk by left. done.
    + assert (visitor filename astComments names strict c st
              = Ok (<[k := candidate filename astComments c k (k :: rest)]> st))
        as -> by (unfold visitor; rewrite Hm; simpl; by rewrite Hk).
      rewrite bind_Ok_l, IH. split.
      * intros (Hall & Hnd & Hnew). split; [eauto|]. split.
        -- constructor; [|done]. intros Hin.
           by destruct (proj1 (has_property_insert _ _ _ _) (Hnew k Hin)).
        -- intros k' [->|Hk']%elem_of_cons; [done|].
           by destruct (proj1 (has_property_insert _ _ _ _) (Hnew k' Hk')).
      * intros ([_ Hall] & Hnd & Hnew). apply NoDup_cons in Hnd as [Hout Hnd].
        split; [done|]. split; [done|].
        intros k' Hk'. apply has_property_insert. split.
        -- by intros ->.
        -- apply Hnew. by right.
  - assert (extracted_at names strict c = None) as ->
      by (unfold extracted_at; by rewrite Hm).
    assert (visitor filename astComments names strict c st = Ok st) as ->
      by (unfold visitor; by rewrite Hm).
    rewrite bind_Ok_l, IH. split.
    + intros (Hall & Hnd & Hnew). split; [split; [eauto | done] | done].
    + by intros ([_ Hall] & Hnd & Hnew).
  - assert (visitor filename astComments names strict c st = Err err) as ->
      by (unfold visitor; by rewrite Hm).
    split; [by intros [? [=]]|]. by intros ([[? [=]] _] & _).
Qed.



(** X22.  In the lenient mode the extraction of a tree whose attributes
    all have a value returns whenever the msgids extracted at the calls
    of the walk are different from each other and none of them is the
    name of a property of [Object.prototype]. *)
Theorem a_lenient_extraction_returns filename p regex names :
  attributes_valued (parsed_ast p) →
  ∃ calls,
    simple note_call (parsed_ast p) [] = Ok calls
    ∧ (NoDup (omap (extracted_at names false) calls) →
       (∀ k, k ∈ omap (extracted_at names false) calls →
             k ∉ Object_prototype) →
       ∃ t, parseFile_parsed filename p regex names false = Ok t).
Proof.
  intros Hv.
  destruct (simple_total note_call (λ n st, ex_intro _ _ eq_refl) _ Hv [])
    as [calls Hcalls].
  exists calls. split; [done|]. intros Hnd Hproto.
  destruct (simple_walks_as _ _ _ Hcalls) as (calls' & -> & Hwalk).
  unfold parseFile_parsed. rewrite Hwalk. apply visit_all_returns.
  split; [|split; [done|]].
  - intros c _. apply maybeExtractMsgids_lenient.
  - intros k Hk. apply has_property_false.
    split; [apply lookup_empty | by apply Hproto].
Qed.

Lemma a_lenient_extraction_returns_witness :
  ∃ t, parseFile_parsed "a.js" Samples.markup_file Samples.default_regex
         Samples.default_names false = Ok t.
Proof.
  destruct (a_lenient_extraction_returns "a.js" Samples.markup_file
              Samples.default_regex Samples.default_names)
    as (calls & Hcalls & Hreturns).
  { intros n Hn. simpl in Hn.
    repeat match goal with
           | H : nested_in _ _ |- _ => unfold nested_in in H
           | H : rtc walk_edge _ _ |- _ =>
               apply rtc_inv in H as [<- | (? & ? & ?)]; [discriminate|]
           | H : walk_edge _ _ |- _ => inversion H; subst; clear H
           | H : _ ∈ _ :: _ |- _ => apply elem_of_cons in H as [-> | H]
           | H : _ ∈ [] |- _ => by apply elem_of_nil in H
           end. }
  vm_compute in Hcalls. injection Hcalls as <-.
  set (found := omap _ _) in Hreturns.
  assert (found = ["title"; "body"]) as Hfound by (vm_compute; reflexivity).
  rewrite Hfound in Hreturns. apply Hreturns.
  - apply NoDup_cons. split; [|apply NoDup_singleton].
    by intros [=]%list_elem_of_singleton.
  - intros k [->|[->|?%elem_of_nil]%elem_of_cons]%elem_of_cons; [| |done];
      apply (bool_decide_unpack _); vm_compute; exact I.
Defined.

(** ** Method calls *)

Lemma truthy_name f : f ≠ "" → truthy f = true.
Proof. by destruct f. Qed.

Lemma visitor_same_call filename astComments names strict
    callee callee' args args' line (st : translations_t) :
  getFunctionNameAndArguments (CallExpression callee args line)
  = getFunctionNameAndArguments (CallExpression callee' args' line) →
  visitor filename astComments names strict (CallExpression callee args line) st
  = visitor filename astComments names strict
      (CallExpression callee' args' line) st.
Proof.
  intros H. unfold visitor, maybeExtractMsgids. rewrite H. reflexivity.
Qed.

(** X19.  A call of the method [f] of any object, a call [f.call(ctx,
    ...)], and a call [obj.f.call(ctx, ...)] or [obj['f'].call(ctx,
    ...)] are visited as the plain call of [f] with the same arguments
    on the same line is (without the context object), provided [f] is
    not empty and not the name [call]. *)
Theorem method_calls_are_read_as_plain_calls
    filename astComments names strict f obj ctx computed computed' args line
    (st : translations_t) :
  f ≠ "" → f ≠ "call" →
  visitor filename astComments names strict
    (CallExpression (MemberExpression obj (Identifier f) computed) args line)
    st
  = visitor filename astComments names strict
      (CallExpression (Identifier f) args line) st
  ∧ visitor filename astComments names strict
      (CallExpression
         (MemberExpression (Identifier f) (Identifier "call") computed)
         (ctx :: args) line) st
    = visitor filename astComments names strict
        (CallExpression (Identifier f) args line) st
  ∧ visitor filename astComments names strict
      (CallExpression
         (MemberExpression (MemberExpression obj (Identifier f) computed')
            (Identifier "call") computed)
         (ctx :: args) line) st
    = visitor filename astComments names strict
        (CallExpression (Identifier f) args line) st
  ∧ visitor filename astComments names strict
      (CallExpression
         (MemberExpression
            (MemberExpression obj (Literal (LitString f)) computed')
            (Identifier "call") computed)
         (ctx :: args) line) st
    = visitor filename astComments names strict
        (CallExpression (Identifier f) args line) st.
Proof.
  intros Hf Hcall.
  pose proof (truthy_name f Hf) as Ht.
  repeat split; apply visitor_same_call; unfold getFunctionNameAndArguments;
    unfold or_else; cbn [node_name node_property node_value tail truthy_opt];
    rewrite ?Ht.
  - rewrite bool_decide_eq_false_2 by congruence. reflexivity.
  - reflexivity.
  - reflexivity.
  - reflexivity.
Qed.

Lemma method_calls_are_read_as_plain_calls_witness :
  visitor "a.js" [] Samples.default_names false
    (CallExpression
       (MemberExpression (Identifier "i18n") (Identifier "gettext") false)
       [Samples.str "hello"] 1) ∅
  = visitor "a.js" [] Samples.default_names false
      (CallExpression (Identifier "gettext") [Samples.str "hello"] 1) ∅.
Proof.
  apply (proj1 (method_calls_are_read_as_plain_calls "a.js" []
                  Samples.default_names false "gettext" (Identifier "i18n")
                  (Identifier "self") false false [Samples.str "hello"] 1 ∅
                  ltac:(discriminate) ltac:(discriminate))).
Defined.

(** ** Passes over the same files *)

Lemma normal_lines r L :
  NoDup L → "" ∉ L → Forall (λ x, has_newline x = false) L →
  r = join_newline L →
  first_lines [] (split_newline r) = L.
Proof.
  intros Hnd He Hnl ->. destruct L as [|x L]; [reflexivity|].
  rewrite split_join by done.
  apply first_lines_id; [done | done |]. intros ? _. apply not_elem_of_nil.
Qed.

Lemma mergeComment_absorbs r x :
  normal_comment r → covers r x →
  mergeComment (Some r) (Some x) = Some r.
Proof.
  intros (L & Hnd & He & Hnl & Hr) Hcov. unfold mergeComment.
  rewrite Array_filter_first_lines, first_lines_app, app_nil_l.
  rewrite (first_lines_covered (split_newline r) (split_newline x)) by done.
  rewrite app_nil_r, (normal_lines r L) by done. by rewrite Hr.
Qed.

Lemma mergeComment_normal o x :
  ∃ r, mergeComment (Some o) (Some x) = Some r
       ∧ normal_comment r ∧ covers r o ∧ covers r x.
Proof.
  set (D := first_lines [] (split_newline o ++ split_newline x)).
  assert (∀ l, l ∈ D ↔ (l ∈ split_newline o ∨ l ∈ split_newline x) ∧ l ≠ "")
    as Hin.
  { intros l. unfold D. rewrite first_lines_elem, elem_of_app.
    split; [intros (? & ? & _); auto|].
    intros [? ?]. split; [done|]. split; [done|]. apply not_elem_of_nil. }
  assert (Forall (λ l, has_newline l = false) D) as Hnl.
  { apply first_lines_newline_free, Forall_app.
    split; apply split_newline_free. }
  assert (∀ y, (∀ l, l ∈ split_newline y → l ≠ "" → l ∈ D) →
               covers (join_newline D) y) as Hcov.
  { intros y Hy l Hl. destruct (decide (l = "")) as [|Hne]; [by left|].
    right. destruct D as [|d D'] eqn:HD.
    - by apply Hy, elem_of_nil in Hl.
    - rewrite split_join by done. by apply Hy. }
  exists (join_newline D). split; [|split; [|split]].
  - unfold mergeComment. by rewrite Array_filter_first_lines.
  - exists D. split; [apply first_lines_NoDup|]. split; [|done].
    intros (_ & ?)%Hin. done.
  - apply Hcov. intros l Hl Hne. apply Hin. auto.
  - apply Hcov. intros l Hl Hne. apply Hin. auto.
Qed.

Lemma covers_trans a b c : covers a b → covers b c → covers a c.
Proof.
  intros Hab Hbc l Hl. destruct (Hbc l Hl) as [?|Hb]; [by left|].
  by apply Hab.
Qed.

Lemma covers_refl a : covers a a.
Proof. intros l Hl. by right. Qed.

(** A text merged with the texts [rs], one after the other. *)
Lemma merged_with_all rs s0 :
  ∃ s, foldl mergeComment (Some s0) (Some <$> rs) = Some s
       ∧ covers s s0
       ∧ (∀ x, x ∈ rs → covers s x)
       ∧ (normal_comment s0 ∨ rs ≠ [] → normal_comment s).
Proof.
  revert s0. induction rs as [|r rs IH]; intros s0.
  - exists s0. split; [done|]. split; [apply covers_refl|].
    split; [by intros ? ?%elem_of_nil|]. by intros [?|?].
  - destruct (mergeComment_normal s0 r) as (s1 & Hs1 & Hn1 & Hc0 & Hcr).
    destruct (IH s1) as (s & Hs & Hc1 & Hall & Hn).
    exists s. rewrite fmap_cons. cbn [foldl]. rewrite Hs1. split; [done|].
    split; [by eapply covers_trans|]. split.
    + intros x [->|Hx]%elem_of_cons; [by eapply covers_trans | by apply Hall].
    + intros _. apply Hn. by left.
Qed.

Lemma merged_with_all_again rs s :
  normal_comment s → (∀ x, x ∈ rs → covers s x) →
  foldl mergeComment (Some s) (Some <$> rs) = Some s.
Proof.
  intros Hn. induction rs as [|r rs IH]; intros Hall; [done|].
  rewrite fmap_cons. cbn [foldl].
  rewrite mergeComment_absorbs; [|done|apply Hall; by left].
  apply IH. intros x Hx. apply Hall. by right.
Qed.

Lemma comment_pass_twice rs y :
  rs ≠ [] →
  let pass y := foldl mergeComment y (Some <$> rs) in
  pass (pass (pass y)) = pass (pass y).
Proof.
  intros Hne pass.
  assert (∃ s1, pass y = Some s1) as [s1 ->].
  { destruct y as [s0|].
    - destruct (merged_with_all rs s0) as (s & ? & _). by exists s.
    - destruct rs as [|r rs]; [done|]. unfold pass.
      rewrite fmap_cons. cbn [foldl].
      change (mergeComment None (Some r)) with (Some r).
      destruct (merged_with_all rs r) as (s & ? & _). by exists s. }
  unfold pass.
  destruct (merged_with_all rs s1) as (s & -> & _ & Hall & Hn).
  apply merged_with_all_again; [|done]. apply Hn. by right.
Qed.

Lemma assign_field_pass {A} (l : list (option A)) :
  (∀ x, foldl assign_field x l = x) ∨ (∃ v, ∀ x, foldl assign_field x l = Some v).
Proof.
  induction l as [|a l IH] using rev_ind; [by left|].
  destruct a as [v|].
  - right. exists v. intros x. by rewrite foldl_app.
  - destruct IH as [IH|[v IH]]; [left | right; exists v]; intros x;
      rewrite foldl_app; simpl; apply IH.
Qed.

Lemma assign_field_pass_once {A} (l : list (option A)) x :
  foldl assign_field (foldl assign_field x l) l = foldl assign_field x l.
Proof.
  destruct (assign_field_pass l) as [H|[v H]]; by rewrite !H.
Qed.

Lemma merged_fields l e :
  msgctxt (foldl mergeTranslation e l)
  = foldl assign_field (msgctxt e) (msgctxt <$> l)
  ∧ msgid_plural (foldl mergeTranslation e l)
    = foldl assign_field (msgid_plural e) (msgid_plural <$> l)
  ∧ msgstr (foldl mergeTranslation e l)
    = foldl assign_field (msgstr e) (msgstr <$> l)
  ∧ comments (foldl mergeTranslation e l)
    = foldl mergeComments (comments e) (comments <$> l).
Proof.
  revert e. induction l as [|a l IH]; intros e; [done|].
  rewrite !fmap_cons. cbn [foldl]. apply (IH (mergeTranslation e a)).
Qed.

Lemma merged_msgid l e e' :
  l ≠ [] →
  msgid (foldl mergeTranslation e l) = msgid (foldl mergeTranslation e' l).
Proof.
  revert e e'. induction l as [|a l IH]; intros e e' Hne; [done|].
  cbn [foldl]. destruct l as [|b l]; [done|]. by apply IH.
Qed.

Lemma merged_comments ps x :
  ps ≠ [] →
  foldl mergeComments x (extracted_comments <$> ps)
  = Some (Comments None
            (foldl mergeComment (x ≫= reference) (Some <$> ps.*1))
            (foldl mergeComment (x ≫= extracted) (Some <$> ps.*2))
            None None).
Proof.
  revert x. induction ps as [|p ps IH]; intros x Hne; [done|].
  rewrite !fmap_cons. cbn [foldl].
  assert (mergeComments x (extracted_comments p)
          = Some (Comments None
                    (mergeComment (x ≫= reference) (Some p.1))
                    (mergeComment (x ≫= extracted) (Some p.2))
                    None None)) as ->.
  { by destruct x. }
  destruct ps as [|q ps]; [done|]. by rewrite IH.
Qed.

Lemma comments_pass_twice ps x :
  ps ≠ [] →
  let pass x := foldl mergeComments x (extracted_comments <$> ps) in
  pass (pass (pass x)) = pass (pass x).
Proof.
  intros Hne pass. unfold pass. rewrite !merged_comments by done.
  cbn [mbind option_bind reference extracted].
  assert (ps.*1 ≠ []) by (by destruct ps).
  assert (ps.*2 ≠ []) by (by destruct ps).
  f_equal. f_equal; by apply comment_pass_twice.
Qed.

Lemma extractor_comments l :
  Forall extractor_entry l →
  ∃ ps, comments <$> l = extracted_comments <$> ps ∧ (l ≠ [] → ps ≠ []).
Proof.
  induction 1 as [|a l (_ & _ & r & e & Ha) _ (ps & IH & _)].
  - by exists [].
  - exists ((r, e) :: ps). rewrite !fmap_cons, IH, Ha. done.
Qed.

Lemma translation_fields (a b : translation) :
  msgid a = msgid b → msgctxt a = msgctxt b →
  msgid_plural a = msgid_plural b → msgstr a = msgstr b →
  comments a = comments b → a = b.
Proof. destruct a, b; simpl; by intros -> -> -> -> ->. Qed.

(** The entry of one msgid through the files that have it. *)
Lemma entry_pass_twice l e :
  l ≠ [] → Forall extractor_entry l →
  let pass e := foldl mergeTranslation e l in
  pass (pass (pass e)) = pass (pass e).
Proof.
  intros Hne Hall pass. unfold pass.
  destruct (extractor_comments l Hall) as (ps & Hps & Hne').
  apply translation_fields.
  - by apply merged_msgid.
  - destruct (merged_fields l (foldl mergeTranslation
                                 (foldl mergeTranslation e l) l)) as (-> & _).
    destruct (merged_fields l (foldl mergeTranslation e l)) as (-> & _).
    by rewrite assign_field_pass_once.
  - destruct (merged_fields l (foldl mergeTranslation
                                 (foldl mergeTranslation e l) l))
      as (_ & -> & _).
    destruct (merged_fields l (foldl mergeTranslation e l)) as (_ & -> & _).
    by rewrite assign_field_pass_once.
  - destruct (merged_fields l (foldl mergeTranslation
                                 (foldl mergeTranslation e l) l))
      as (_ & _ & -> & _).
    destruct (merged_fields l (foldl mergeTranslation e l))
      as (_ & _ & -> & _).
    by rewrite assign_field_pass_once.
  - destruct (merged_fields l (foldl mergeTranslation
                                 (foldl mergeTranslation e l) l))
      as (_ & _ & _ & ->).
    destruct (merged_fields l (foldl mergeTranslation e l))
      as (_ & _ & _ & ->).
    destruct (merged_fields l e) as (_ & _ & _ & ->).
    rewrite Hps. apply comments_pass_twice. by apply Hne'.
Qed.

Lemma assign_field_same {A} (x : option A) : assign_field x x = x.
Proof. by destruct x. Qed.

Lemma merged_from_nothing a :
  mergeTranslation
    {| msgid := msgid a; msgctxt := msgctxt a;
       msgid_plural := msgid_plural a; msgstr := msgstr a;
       comments := None |} a = a.
Proof.
  destruct a as [i c p s [co|]]; unfold mergeTranslation; simpl;
    by rewrite !assign_field_same.
Qed.

Lemma merged_entries ns o :
  foldl merge_entry o ns
  = match o, omap id ns with
    | Some e, l => Some (foldl mergeTranslation e l)
    | None, [] => None
    | None, a :: l => Some (foldl mergeTranslation a l)
    end.
Proof.
  revert o. induction ns as [|n ns IH]; intros o; [by destruct o|].
  cbn [foldl]. rewrite IH. destruct o as [e|], n as [a|]; simpl; done.
Qed.

Lemma option_pass_twice ns o :
  Forall (λ n, ∀ a, n = Some a → extractor_entry a) ns →
  let pass o := foldl merge_entry o ns in
  pass (pass (pass o)) = pass (pass o).
Proof.
  intros Hall pass.
  assert (Forall extractor_entry (omap id ns)) as Hl.
  { apply Forall_forall. intros a (n & Hn & Ha)%list_elem_of_omap.
    eapply Forall_forall in Hall; [|exact Hn]. apply Hall. by destruct n. }
  unfold pass. rewrite !merged_entries.
  destruct (omap id ns) as [|a l] eqn:Hns; [by destruct o|].
  assert (∃ e, match o with
               | Some e => Some (foldl mergeTranslation e (a :: l))
               | None => Some (foldl mergeTranslation a l)
               end = Some (foldl mergeTranslation e (a :: l))) as [e ->].
  { destruct o as [e|]; [by exists e|]. eexists.
    cbn [foldl]. by rewrite merged_from_nothing. }
  f_equal. by apply entry_pass_twice.
Qed.

Lemma merged_maps_lookup Es (T : translations_t) k :
  foldl mergeTranslations T Es !! k
  = foldl merge_entry (T !! k) ((.!! k) <$> Es).
Proof.
  revert T. induction Es as [|E Es IH]; intros T; [done|].
  rewrite fmap_cons. cbn [foldl]. by rewrite IH, mergeTranslations_lookup.
Qed.

Lemma maps_pass_twice Es (T : translations_t) :
  Forall (map_Forall (λ _, extractor_entry)) Es →
  let pass T := foldl mergeTranslations T Es in
  pass (pass (pass T)) = pass (pass T).
Proof.
  intros Hall pass. apply map_eq. intros k. unfold pass.
  rewrite !merged_maps_lookup. apply option_pass_twice.
  apply Forall_fmap, Forall_forall. intros E HE a Ha.
  eapply Forall_forall in Hall; [|exact HE]. by apply (Hall k).
Qed.

Lemma parseFile_entries parser filename source regex names strict E :
  parseFile parser filename source regex names strict = Ok E →
  map_Forall (λ _, extractor_entry) E.
Proof.
  unfold parseFile. intros (p & _ & H)%bind_Ok.
  by eapply parseFile_parsed_entries.
Qed.

(** A pass over the files merges the same extractions whatever it
    started from. *)
Lemma each_source_merges w regex names strict sources (T T1 : translations_t) :
  each_source w regex names strict sources T = Ok T1 →
  ∃ Es, Forall (map_Forall (λ _, extractor_entry)) Es
        ∧ ∀ T', each_source w regex names strict sources T'
                = Ok (foldl mergeTranslations T' Es).
Proof.
  revert T. induction sources as [|[f s] rest IH]; intros T; simpl.
  - intros _. by exists [].
  - intros (E & HE & Hrest)%bind_Ok.
    destruct (IH _ Hrest) as (Es & Hall & Hfold).
    exists (E :: Es). split.
    + constructor; [by eapply parseFile_entries | done].
    + intros T'. rewrite HE. simpl. apply Hfold.
Qed.

(** X20.  When the loop over the source files has gone through once,
    it goes through again from its own result, and a third time from
    the result of the second, and the third pass returns what the
    second returned: the entries no longer change. *)
Theorem a_third_pass_over_the_files_changes_nothing
    w regex names strict sources (T T1 : translations_t) :
  each_source w regex names strict sources T = Ok T1 →
  ∃ T2, each_source w regex names strict sources T1 = Ok T2
        ∧ each_source w regex names strict sources T2 = Ok T2.
Proof.
  intros H. destruct (each_source_merges _ _ _ _ _ _ _ H) as (Es & Hall & Hfold).
  rewrite Hfold in H. injection H as <-.
  exists (foldl mergeTranslations (foldl mergeTranslations T Es) Es).
  split; [apply Hfold|]. rewrite Hfold. f_equal. by apply maps_pass_twice.
Qed.

Lemma a_third_pass_over_the_files_changes_nothing_witness :
  ∃ T2, each_source Samples.no_catalog Samples.default_regex
          Samples.default_names false MoreSamples.one_source
          Samples.extracted_hello = Ok T2
        ∧ each_source Samples.no_catalog Samples.default_regex
            Samples.default_names false MoreSamples.one_source T2 = Ok T2.
Proof.
  apply (a_third_pass_over_the_files_changes_nothing Samples.no_catalog
           Samples.default_regex Samples.default_names false
           MoreSamples.one_source ∅ Samples.extracted_hello).
  vm_compute; reflexivity.
Defined.
